(** * Logical-to-physical mapper of the SQL backend

    A shallow embedding of [cubes/backends/sql/common.py]: the reference
    coalescer [coalesce_physical] and the [Mapper] class (attribute
    catalog, [logical], [physical], [table_map], [relevant_joins]),
    followed by the properties that the specification states about them.

    Python values are modelled by the types the data model gives them:
    a schema, table or column name is [option string] ([None] is
    Python's [None]), a dictionary is a [gmap], a set is a [gset], and a
    call that may raise returns a [result]. *)

From Stdlib Require Import String Ascii.
From stdpp Require Import gmap strings list fin_maps fin_sets relations.

Open Scope string_scope.

Set Warnings "-clear-no-such-hyp".

(** ** Python preliminaries *)

(** Exceptions raised by the module, by class. *)
Inductive exn : Type :=
  | Exception (msg : string)
  | ValueError (msg : string)
  | KeyError (key : string).

(** Outcome of a call: a returned value or a raised exception. *)
Inductive result (A : Type) : Type :=
  | Return (a : A)
  | Raise (e : exn).

Arguments Return {A} a.
Arguments Raise {A} e.

#[global] Instance result_ret : MRet result := fun _ a => Return a.
#[global] Instance result_bind : MBind result := fun _ _ f r =>
  match r with
  | Return a => f a
  | Raise e => Raise e
  end.

Definition raises {A} (r : result A) : bool :=
  match r with
  | Return _ => false
  | Raise _ => true
  end.

(** A name as Python has it: a string or [None]. *)
Abbreviation name := (option string).

(** Truth value of a name: [None] and the empty string are false. *)
Definition truthy (v : name) : bool :=
  match v with
  | Some (String _ _) => true
  | _ => false
  end.

(** [a or b] on names. *)
Definition py_or (a b : name) : name := if truthy a then a else b.

(** [s.split(".")]: the pieces of [s] between the dots, never empty. *)
Fixpoint split_dot (s : string) : list string :=
  match s with
  | EmptyString => [EmptyString]
  | String c rest =>
      if Ascii.eqb c "."%char then EmptyString :: split_dot rest
      else match split_dot rest with
           | piece :: pieces => String c piece :: pieces
           | [] => [String c EmptyString]
           end
  end.

(** [".".join(pieces)]. *)
Fixpoint join_dot (pieces : list string) : string :=
  match pieces with
  | [] => EmptyString
  | [piece] => piece
  | piece :: rest => piece ++ "." ++ join_dot rest
  end.

(** ** Physical references and joins *)

(** [PhysicalReference = namedtuple("PhysicalReference",
    ["schema", "table", "column"])]. *)
Record PhysicalReference : Type := mkPhysicalReference {
  schema : name;
  table : name;
  column : name
}.

(** [Join = namedtuple("Join", ["master", "detail", "alias"])]. *)
Record Join : Type := mkJoin {
  master : PhysicalReference;
  detail : PhysicalReference;
  alias : name
}.

#[global] Instance PhysicalReference_eq_dec : EqDecision PhysicalReference.
Proof. solve_decision. Defined.

#[global] Instance Join_eq_dec : EqDecision Join.
Proof. solve_decision. Defined.

(** The shapes of reference that [coalesce_physical] tells apart: a
    string, a dictionary, or any other sequence (list or tuple). *)
Inductive rawref : Type :=
  | RefStr (s : string)
  | RefDict (d : gmap string name)
  | RefSeq (items : list name).

(** [d.get(key)]: the value stored under [key], [None] when absent. *)
Definition dict_get (d : gmap string name) (key : string) : name :=
  default None (d !! key).

(** Truth value of a raw reference: empty strings, dictionaries and
    sequences are false. *)
Definition rawref_truthy (r : rawref) : bool :=
  match r with
  | RefStr s => truthy (Some s)
  | RefDict d => bool_decide (d ≠ ∅)
  | RefSeq items => bool_decide (items ≠ [])
  end.

Definition arity_message : string :=
  "Number of items in table reference should be 2 (table, column) or 3 (schema, table, column)".

(** [coalesce_physical(ref, default_table=None, schema=None)]. *)
Definition coalesce_physical (ref : rawref) (default_table : name)
    (schema : name) : result PhysicalReference :=
  match ref with
  | RefStr s =>
      match split_dot s with
      | dim_name :: ((_ :: _) as attr_path) =>
          Return (mkPhysicalReference schema (Some dim_name)
                    (Some (join_dot attr_path)))
      | _ => Return (mkPhysicalReference schema default_table (Some s))
      end
  | RefDict d =>
      Return (mkPhysicalReference (py_or (dict_get d "schema") schema)
                (py_or (dict_get d "table") default_table)
                (dict_get d "column"))
  | RefSeq items =>
      match items with
      | [t; c] => Return (mkPhysicalReference schema t c)
      | [s; t; c] => Return (mkPhysicalReference s t c)
      | _ => Raise (Exception arity_message)
      end
  end.

(** ** The cube model as the mapper reads it *)

(** What the mapper reads of the dimension an attribute belongs to. *)
Record Dimension : Type := mkDimension {
  dimension_name : string;
  is_flat : bool;
  has_details : bool
}.

(** An attribute: its name, the outcome of reading [attribute.locales]
    (the read may raise) and its owning dimension, [None] for a measure
    or a detail of the fact. *)
Record Attribute : Type := mkAttribute {
  attribute_name : string;
  locales : result (list string);
  dimension : option Dimension
}.

Record Level : Type := mkLevel {
  attributes : list Attribute
}.

Record CubeDimension : Type := mkCubeDimension {
  cube_dimension : Dimension;
  levels : list Level
}.

Record Cube : Type := mkCube {
  cube_name : name;
  fact : name;
  measures : list Attribute;
  details : list Attribute;
  dimensions : list CubeDimension;
  cube_mappings : option (gmap string rawref)
}.

(** Modelled from the spec: the [Attribute] class is not part of this
    module; its string conversion [str(attribute)] is the attribute's
    name. *)
Definition str_attribute (a : Attribute) : string := attribute_name a.

(** Modelled from the spec: the [Dimension] class is not part of this
    module; its string conversion [str(dimension)] is the dimension's
    name. *)
Definition str_dimension (d : Dimension) : string := dimension_name d.

(** A raw join: a dictionary read with [join["master"]],
    [join["detail"]] and [join.get("alias")]; an absent key is [None]. *)
Record RawJoin : Type := mkRawJoin {
  raw_master : option rawref;
  raw_detail : option rawref;
  raw_alias : name
}.

(** ** The mapper *)

Record Mapper : Type := mkMapper {
  m_cube : Cube;
  m_mappings : option (gmap string rawref);
  m_locale : name;
  m_fact_name : name;
  m_schema : name;
  m_simplify_dimension_references : bool;
  m_dimension_table_prefix : name;
  m_joins : list Join;
  m_attributes : gmap string Attribute
}.

(** [dimension.is_flat and not dimension.has_details], under the
    mapper's [simplify_dimension_references] flag. *)
Definition simplified (self : Mapper) (d : Dimension) : bool :=
  m_simplify_dimension_references self && (is_flat d && negb (has_details d)).

(** [Mapper.logical]. *)
Definition logical (self : Mapper) (attribute : Attribute) : string :=
  match dimension attribute with
  | Some d =>
      if simplified self d then dimension_name d
      else dimension_name d ++ "." ++ str_attribute attribute
  | None => str_attribute attribute
  end.

(** [Mapper.split_logical]. *)
Definition split_logical (reference : string) : name * string :=
  match split_dot reference with
  | dim_name :: ((_ :: _) as attr_path) => (Some dim_name, join_dot attr_path)
  | _ => (None, reference)
  end.

(** [Mapper._collect_attributes]: the catalog is rebuilt from scratch,
    later writes to a key replacing earlier ones. *)
Definition _collect_attributes (self : Mapper) : Mapper :=
  let put (catalog : gmap string Attribute) (attr : Attribute) :=
    <[logical self attr := attr]> catalog in
  let catalog := foldl put ∅ (measures (m_cube self)) in
  let catalog := foldl put catalog (details (m_cube self)) in
  let catalog :=
    foldl (fun catalog dim =>
             foldl (fun catalog level => foldl put catalog (attributes level))
                   catalog (levels dim))
          catalog (dimensions (m_cube self)) in
  mkMapper (m_cube self) (m_mappings self) (m_locale self) (m_fact_name self)
    (m_schema self) (m_simplify_dimension_references self)
    (m_dimension_table_prefix self) (m_joins self) catalog.

(** [join[key]] on a raw join. *)
Definition raw_item (key : string) (item : option rawref) : result rawref :=
  match item with
  | Some r => Return r
  | None => Raise (KeyError key)
  end.

(** One turn of the loop of [_collect_joins]. *)
Definition collect_join (fact_name : name) (join : RawJoin) : result Join :=
  m ← raw_item "master" (raw_master join);
  master ← coalesce_physical m fact_name None;
  d ← raw_item "detail" (raw_detail join);
  detail ← coalesce_physical d None None;
  mret (mkJoin master detail (raw_alias join)).

(** The loop of [_collect_joins], appending to the joins collected so
    far. *)
Fixpoint collect_joins_loop (fact_name : name) (joins : list RawJoin)
    (collected : list Join) : result (list Join) :=
  match joins with
  | [] => Return collected
  | join :: rest =>
      j ← collect_join fact_name join;
      collect_joins_loop fact_name rest (collected ++ [j])
  end.

(** [Mapper._collect_joins]. *)
Definition _collect_joins (self : Mapper) (joins : option (list RawJoin))
    : result Mapper :=
  let joins := default [] joins in
  collected ← collect_joins_loop (m_fact_name self) joins [];
  mret (mkMapper (m_cube self) (m_mappings self) (m_locale self)
          (m_fact_name self) (m_schema self)
          (m_simplify_dimension_references self)
          (m_dimension_table_prefix self) collected (m_attributes self)).

(** [Mapper.__init__]. *)
Definition Mapper_init (cube : option Cube)
    (mappings : option (gmap string rawref)) (locale schema fact_name
    dimension_prefix : name) (joins : option (list RawJoin)) : result Mapper :=
  match cube with
  | None => Raise (Exception "Cube for mapper should not be None.")
  | Some cube =>
      let self :=
        mkMapper cube mappings locale
          (py_or (py_or fact_name (fact cube)) (cube_name cube))
          schema true dimension_prefix [] ∅ in
      let self := _collect_attributes self in
      _collect_joins self joins
  end.

(** The [try] block that opens [Mapper.physical]: the locale used by
    the rest of the method. *)
Definition resolve_locale (attribute : Attribute) (locale : name) : name :=
  match locales attribute with
  | Return (first :: others) =>
      if bool_decide (locale ∈ Some <$> first :: others) then locale
      else Some first
  | Return [] => None
  | Raise _ => None
  end.

(** [text += sep + locale] under [if locale:]. *)
Definition with_locale (text sep : string) (locale : name) : string :=
  match locale with
  | Some (String c rest) => text ++ sep ++ String c rest
  | _ => text
  end.

(** The override part of [Mapper.physical]: the reference found through
    [self.cube.mappings], [None] when the method goes on to the default
    reference. *)
Definition mapped_reference (self : Mapper) (attribute : Attribute)
    (locale : name) : result (option PhysicalReference) :=
  match cube_mappings (m_cube self) with
  | Some mappings =>
      if bool_decide (mappings ≠ ∅) then
        let logical := with_locale (logical self attribute) "." locale in
        match mappings !! logical with
        | Some mapped_ref =>
            if rawref_truthy mapped_ref then
              reference ← coalesce_physical mapped_ref (m_fact_name self)
                             (m_schema self);
              mret (Some reference)
            else Return None
        | None => Return None
        end
      else Return None
  | None => Return None
  end.

(** The default reference of [Mapper.physical]. *)
Definition default_reference (self : Mapper) (attribute : Attribute)
    (locale : name) : PhysicalReference :=
  let column_name := with_locale (str_attribute attribute) "_" locale in
  let table_name :=
    match dimension attribute with
    | Some d =>
        if negb (simplified self d) then
          let table_name := str_dimension d in
          match m_dimension_table_prefix self with
          | Some (String c rest) => Some (String c rest ++ table_name)
          | _ => Some table_name
          end
        else m_fact_name self
    | None => m_fact_name self
    end in
  mkPhysicalReference (m_schema self) table_name (Some column_name).

(** [Mapper.physical]. *)
Definition physical (self : Mapper) (attribute : Attribute) (locale : name)
    : result PhysicalReference :=
  let locale := resolve_locale attribute locale in
  reference ← mapped_reference self attribute locale;
  match reference with
  | Some reference => Return reference
  | None => Return (default_reference self attribute locale)
  end.

(** ** Table map *)

(** A table as the mapper keys it: [(schema, table)]. *)
Abbreviation tablekey := (name * name)%type.

Definition master_key (join : Join) : tablekey :=
  (schema (master join), table (master join)).

Definition detail_key (join : Join) : tablekey :=
  (schema (detail join), py_or (alias join) (table (detail join))).

Definition detail_message : string :=
  "Detail table name should be present and should not be a fact table.".

(** The guard that opens the loop of [table_map]. *)
Definition invalid_detail (fact_name : name) (join : Join) : bool :=
  negb (truthy (table (detail join)))
  || bool_decide (table (detail join) = fact_name).

(** The loop of [Mapper.table_map] over the collected joins. *)
Fixpoint table_map_loop (fact_name : name) (joins : list Join)
    (tables : gmap tablekey tablekey) : result (gmap tablekey tablekey) :=
  match joins with
  | [] => Return tables
  | join :: rest =>
      if invalid_detail fact_name join then Raise (ValueError detail_message)
      else
        let tables := <[master_key join := master_key join]> tables in
        let tables :=
          <[detail_key join :=
              (schema (detail join), table (detail join))]> tables in
        table_map_loop fact_name rest tables
  end.

(** [Mapper.table_map]. *)
Definition table_map (self : Mapper) : result (gmap tablekey tablekey) :=
  let fact_key := (m_schema self, m_fact_name self) in
  table_map_loop (m_fact_name self) (m_joins self) {[ fact_key := fact_key ]}.

(** ** Relevant joins *)

(** The three variables of [Mapper.relevant_joins]. *)
Record JoinSearch : Type := mkJoinSearch {
  tables_to_join : gset tablekey;
  joined_tables : gset tablekey;
  joins : list Join
}.

(** The [for] loop of [relevant_joins] for the popped [table], over the
    joins still to test; it stops at the first join it takes. *)
Fixpoint scan_joins (table : tablekey) (candidates : list Join)
    (st : JoinSearch) : JoinSearch :=
  match candidates with
  | [] => st
  | join :: rest =>
      let master := master_key join in
      let detail := detail_key join in
      if bool_decide (table = detail) then
        let st := mkJoinSearch (tables_to_join st) (joined_tables st)
                    (joins st ++ [join]) in
        let st :=
          if bool_decide (master ∉ joined_tables st) then
            mkJoinSearch (tables_to_join st ∪ {[ master ]}) (joined_tables st)
              (joins st)
          else st in
        mkJoinSearch (tables_to_join st) (joined_tables st ∪ {[ detail ]})
          (joins st)
      else scan_joins table rest st
  end.

(** One turn of the [while] loop once [tables_to_join.pop()] has
    returned [table]. *)
Definition join_table (self : Mapper) (table : tablekey) (st : JoinSearch)
    : JoinSearch :=
  scan_joins table (m_joins self)
    (mkJoinSearch (tables_to_join st ∖ {[ table ]}) (joined_tables st)
       (joins st)).

(** The state on entering the [while] loop. *)
Definition search_start (attributes : list PhysicalReference) : JoinSearch :=
  mkJoinSearch (list_to_set ((fun ref => (schema ref, table ref)) <$> attributes))
    ∅ [].

(** A turn of the [while] loop: [set.pop] removes and returns an
    arbitrary element of the work set. *)
Inductive search_step (self : Mapper) : JoinSearch -> JoinSearch -> Prop :=
  | search_pop (table : tablekey) (st : JoinSearch) :
      table ∈ tables_to_join st ->
      search_step self st (join_table self table st).

(** [relevant_joins(attributes)] may return [result]: some run of the
    loop leaves the work set empty with [result] collected. *)
Definition relevant_joins_returns (self : Mapper)
    (attributes : list PhysicalReference) (result : list Join) : Prop :=
  exists st, rtc (search_step self) (search_start attributes) st
             /\ tables_to_join st = ∅ /\ joins st = result.

(** [set.pop] made executable: the element of the set at position
    [pick], counted cyclically in the set's enumeration. *)
Definition set_pop (pick : nat) (s : gset tablekey) : option tablekey :=
  elements s !! (pick mod size s).

(** The [while] loop run for at most [fuel] turns, the [i]-th pop
    decided by [picks i]. *)
Fixpoint search_loop (self : Mapper) (picks : nat -> nat) (fuel i : nat)
    (st : JoinSearch) : option JoinSearch :=
  if bool_decide (tables_to_join st = ∅) then Some st
  else
    match fuel with
    | O => None
    | S fuel =>
        match set_pop (picks i) (tables_to_join st) with
        | Some table => search_loop self picks fuel (S i) (join_table self table st)
        | None => None
        end
    end.

(** [Mapper.relevant_joins] under a pop order and a bound on the number
    of turns. *)
Definition relevant_joins (self : Mapper) (picks : nat -> nat) (fuel : nat)
    (attributes : list PhysicalReference) : option (list Join) :=
  joins <$> search_loop self picks fuel 0 (search_start attributes).

(** ** The claims as the specification words them

    The properties that do not hold of the code as worded are kept here
    in the specification's own terms, to be refuted below and proved in
    amended form. *)

(** The lookup key of the override table as the specification gives it:
    the logical reference, with ["." + locale] appended when the
    resolved locale is not [None]. *)
Definition spec_override_key (self : Mapper) (attribute : Attribute)
    (locale : name) : string :=
  match resolve_locale attribute locale with
  | Some l => logical self attribute ++ "." ++ l
  | None => logical self attribute
  end.

(** The column of the default reference as the specification gives it:
    the attribute's name, with ["_" + locale] appended when the resolved
    locale is not [None]. *)
Definition spec_column_name (attribute : Attribute) (locale : name) : string :=
  match resolve_locale attribute locale with
  | Some l => attribute_name attribute ++ "_" ++ l
  | None => attribute_name attribute
  end.

(** The table of the default reference as the specification gives it. *)
Definition spec_table_name (self : Mapper) (attribute : Attribute) : name :=
  match dimension attribute with
  | Some d =>
      if simplified self d then m_fact_name self
      else match m_dimension_table_prefix self with
           | Some prefix => Some (prefix ++ dimension_name d)
           | None => Some (dimension_name d)
           end
  | None => m_fact_name self
  end.

(** A field of a keyed record as the specification resolves it: the
    supplied string whenever the key holds one, the default otherwise. *)
Definition spec_record_field (d : gmap string name) (key : string)
    (fallback : name) : name :=
  match d !! key with
  | Some (Some supplied) => Some supplied
  | _ => fallback
  end.

(** C2 as the specification words it: an entry found under the
    specification's key is what [physical] coalesces and returns. *)
Definition spec_override_claim (self : Mapper) (attribute : Attribute)
    (locale : name) : Prop :=
  forall mappings raw,
    cube_mappings (m_cube self) = Some mappings -> mappings <> ∅ ->
    mappings !! spec_override_key self attribute locale = Some raw ->
    physical self attribute locale
    = coalesce_physical raw (m_fact_name self) (m_schema self).

(** C3 as the specification words it: without a matching override
    entry [physical] returns the default reference with the
    specification's column. *)
Definition spec_default_claim (self : Mapper) (attribute : Attribute)
    (locale : name) : Prop :=
  cube_mappings (m_cube self) = None
  \/ (exists mappings, cube_mappings (m_cube self) = Some mappings
        /\ mappings !! spec_override_key self attribute locale = None) ->
  physical self attribute locale
  = Return (mkPhysicalReference (m_schema self) (spec_table_name self attribute)
              (Some (spec_column_name attribute locale))).

(** The detail key of a join as the specification gives it: the
    detail schema with the alias if there is one, else with the detail
    table. *)
Definition spec_detail_key (join : Join) : tablekey :=
  (schema (detail join),
   match alias join with
   | Some given => Some given
   | None => table (detail join)
   end).

(** C1 as the specification words it, for one turn of the loop: the
    first join whose detail key, as the specification gives it, is the
    popped table is appended, and a table that is no such key adds no
    join. *)
Definition spec_turn_claim (self : Mapper) (st : JoinSearch)
    (popped : tablekey) : Prop :=
  (forall before join after,
     m_joins self = (before ++ join :: after)%list ->
     Forall (fun other => spec_detail_key other <> popped) before ->
     spec_detail_key join = popped ->
     joins (join_table self popped st) = (joins st ++ [join])%list)
  /\ (Forall (fun other => spec_detail_key other <> popped) (m_joins self) ->
      joins (join_table self popped st) = joins st).

(** C1 as the specification words its example: with a single join of
    detail table ["dim_date"] and alias ["d"], a reference with table
    ["dim_date"] gives no join and a reference with table ["d"] gives
    exactly that join. *)
Definition spec_example_claim (self : Mapper) : Prop :=
  forall join,
    m_joins self = [join] ->
    table (detail join) = Some "dim_date" -> alias join = Some "d" ->
    forall s c picks fuel result,
      (relevant_joins self picks fuel
         [mkPhysicalReference s (Some "dim_date") c] = Some result ->
       result = [])
      /\ (relevant_joins self picks fuel
            [mkPhysicalReference s (Some "d") c] = Some result ->
          result = [join]).

(** ** Auxiliary notions for the join search *)

(** The first join, in list order, whose detail side is [table]. *)
Definition first_match (table : tablekey) (candidates : list Join)
    : option Join :=
  snd <$> list_find (fun join => table = detail_key join) candidates.

(** The detail sides of the collected joins. *)
Definition detail_keys (self : Mapper) : gset tablekey :=
  list_to_set (detail_key <$> m_joins self).

(** The quantity that every turn of the [while] loop decreases. *)
Definition search_measure (self : Mapper) (st : JoinSearch) : nat :=
  size (tables_to_join st) + 2 * size (detail_keys self ∖ joined_tables st).

(** What the loop maintains: a table that is both waiting and joined
    is matched by a join whose master side is joined as well. *)
Definition search_invariant (self : Mapper) (st : JoinSearch) : Prop :=
  forall table join,
    table ∈ tables_to_join st -> table ∈ joined_tables st ->
    first_match table (m_joins self) = Some join ->
    master_key join ∈ joined_tables st.

(** The number of turns that always suffices. *)
Definition search_bound (self : Mapper) (attributes : list PhysicalReference)
    : nat :=
  length attributes + 2 * length (m_joins self).

(** A raw reference that names no schema: a string or a 2-element
    sequence. *)
Definition without_schema (r : rawref) : bool :=
  match r with
  | RefStr _ => true
  | RefSeq [_; _] => true
  | _ => false
  end.

(** The entries that one turn of the loop of [table_map] writes. *)
Definition join_entries (join : Join) : list (tablekey * tablekey) :=
  [(master_key join, master_key join);
   (detail_key join, (schema (detail join), table (detail join)))].

(** ** Auxiliary notions for the further properties *)

(** ["." in s]. *)
Fixpoint has_dot (s : string) : bool :=
  match s with
  | EmptyString => false
  | String c rest => Ascii.eqb c "."%char || has_dot rest
  end.

(** A raw reference that [coalesce_physical] accepts: anything but a
    sequence of a length other than 2 and 3. *)
Definition rawref_ok (r : rawref) : bool :=
  match r with
  | RefSeq items => bool_decide (length items = 2 \/ length items = 3)
  | _ => true
  end.

(** A raw join that [_collect_joins] accepts: both keys present and
    both references accepted by [coalesce_physical]. *)
Definition raw_join_ok (raw : RawJoin) : bool :=
  match raw_master raw, raw_detail raw with
  | Some m, Some d => rawref_ok m && rawref_ok d
  | _, _ => false
  end.

(** The attributes of a cube in the order [_collect_attributes] visits
    them: measures, details, then every attribute of every level of
    every dimension. *)
Definition cube_attributes (cube : Cube) : list Attribute :=
  (measures cube ++ details cube
   ++ (dimensions cube ≫= fun dim => levels dim ≫= attributes))%list.

(** The tables a join search has to visit: the tables of the
    references, and the master of the first join that has a visited
    table as its detail. *)
Inductive needed (self : Mapper) (attributes : list PhysicalReference)
    : tablekey -> Prop :=
  | needed_reference (ref : PhysicalReference) :
      ref ∈ attributes -> needed self attributes (schema ref, table ref)
  | needed_master (table : tablekey) (join : Join) :
      needed self attributes table ->
      first_match table (m_joins self) = Some join ->
      needed self attributes (master_key join).

(** How many times [join] occurs in a list of joins. *)
Definition occurrences (join : Join) (joins : list Join) : nat :=
  length (filter (fun other => other = join) joins).

(** What the join search maintains about the tables it visits: the
    work set and the joined tables are needed tables, every joined
    table has its first matching join in the result, every join of the
    result is the first match of a joined table, and every table of a
    reference and every master of a taken join is waiting, joined, or
    no join's detail. *)
Definition visit_invariant (self : Mapper)
    (attributes : list PhysicalReference) (st : JoinSearch) : Prop :=
  (forall table, table ∈ tables_to_join st -> needed self attributes table)
  /\ (forall table, table ∈ joined_tables st ->
        needed self attributes table
        /\ exists join, first_match table (m_joins self) = Some join
                        /\ join ∈ joins st)
  /\ (forall join, join ∈ joins st ->
        exists table, table ∈ joined_tables st
                      /\ first_match table (m_joins self) = Some join)
  /\ (forall ref, ref ∈ attributes ->
        (schema ref, table ref) ∈ tables_to_join st
        \/ (schema ref, table ref) ∈ joined_tables st
        \/ first_match (schema ref, table ref) (m_joins self) = None)
  /\ (forall table join,
        table ∈ joined_tables st ->
        first_match table (m_joins self) = Some join ->
        master_key join ∈ tables_to_join st
        \/ master_key join ∈ joined_tables st
        \/ first_match (master_key join) (m_joins self) = None).

(** What the join search maintains when no join has its own detail as
    master: no waiting table is joined and no join is taken twice. *)
Definition single_invariant (st : JoinSearch) : Prop :=
  tables_to_join st ## joined_tables st
  /\ NoDup (joins st)
  /\ (forall join, join ∈ joins st -> detail_key join ∈ joined_tables st).

(** How often a join may have been taken: never while its detail is
    not joined, once while its detail is joined and waiting again,
    twice at most. *)
Definition taken_invariant (st : JoinSearch) : Prop :=
  forall join,
    occurrences join (joins st)
    <= if bool_decide (detail_key join ∈ joined_tables st)
       then (if bool_decide (detail_key join ∈ tables_to_join st) then 1 else 2)
       else 0.

(** ** Strings *)

Lemma split_dot_nonempty (s : string) : split_dot s <> [].
Proof.
  destruct s as [|c rest]; simpl; [discriminate|].
  destruct (Ascii.eqb c "."); [discriminate|].
  destruct (split_dot rest); discriminate.
Qed.

Lemma join_dot_cons (piece : string) (rest : list string) :
  rest <> [] -> join_dot (piece :: rest) = piece ++ "." ++ join_dot rest.
Proof. destruct rest; [congruence | reflexivity]. Qed.

(** Joining what was split gives the string back. *)
Lemma join_split_dot (s : string) : join_dot (split_dot s) = s.
Proof.
  induction s as [|c rest IH]; [reflexivity|].
  simpl. destruct (Ascii.eqb_spec c ".") as [->|Hc].
  - rewrite join_dot_cons by apply split_dot_nonempty. simpl. by rewrite IH.
  - pose proof (split_dot_nonempty rest) as Hne.
    destruct (split_dot rest) as [|piece pieces]; [done|].
    destruct pieces as [|piece' pieces].
    + simpl in *. by rewrite IH.
    + change (join_dot (String c piece :: piece' :: pieces))
        with (String c (piece ++ "." ++ join_dot (piece' :: pieces))).
      f_equal. exact IH.
Qed.

(** ** Truth values *)

Lemma truthy_spec (v : name) :
  truthy v = true <-> exists s, v = Some s /\ s <> "".
Proof.
  split.
  - destruct v as [[|c rest]|]; simpl; try discriminate.
    intros _. by eexists.
  - intros (s & -> & Hs). by destruct s.
Qed.

Lemma truthy_false (v : name) :
  truthy v = false <-> v = None \/ v = Some "".
Proof.
  destruct v as [[|c rest]|]; simpl; split; try done; auto.
  intros [?|?]; discriminate.
Qed.

Lemma with_locale_truthy (text sep : string) (locale : string) :
  locale <> "" -> with_locale text sep (Some locale) = text ++ sep ++ locale.
Proof. by destruct locale. Qed.

Lemma with_locale_falsy (text sep : string) (locale : name) :
  truthy locale = false -> with_locale text sep locale = text.
Proof. by destruct locale as [[|c rest]|]. Qed.

(** ** Reference coalescing *)

(** C5, as worded, fails: a record that supplies the empty string as
    its schema and its table gets the defaults, not the supplied
    values. *)
Lemma coalesce_record_empty_fields :
  let d : gmap string name :=
    <["schema" := Some ""]> (<["table" := Some ""]> {["column" := Some "c"]}) in
  coalesce_physical (RefDict d) (Some "sales") (Some "public")
  <> Return (mkPhysicalReference (spec_record_field d "schema" (Some "public"))
               (spec_record_field d "table" (Some "sales"))
               (dict_get d "column")).
Proof. vm_compute. discriminate. Qed.

(** C5, amended: on a keyed record [coalesce_physical] always returns;
    a schema or table supplied as a non-empty string is the one
    returned, a schema or table that is missing, [None] or the empty
    string is replaced by the default, and the column is the record's
    column value ([None] when the record has none). *)
Theorem coalesce_record (d : gmap string name) (default_table default_schema : name) :
  exists r,
    coalesce_physical (RefDict d) default_table default_schema = Return r
    /\ (forall s, d !! "schema" = Some (Some s) -> s <> "" -> schema r = Some s)
    /\ (d !! "schema" = None \/ d !! "schema" = Some None
        \/ d !! "schema" = Some (Some "") -> schema r = default_schema)
    /\ (forall t, d !! "table" = Some (Some t) -> t <> "" -> table r = Some t)
    /\ (d !! "table" = None \/ d !! "table" = Some None
        \/ d !! "table" = Some (Some "") -> table r = default_table)
    /\ column r = default None (d !! "column").
Proof.
  eexists. split; [reflexivity|]. simpl. unfold py_or, dict_get.
  repeat split.
  - intros s -> Hs. by destruct s.
  - by intros [-> | [-> | ->]].
  - intros t -> Ht. by destruct t.
  - by intros [-> | [-> | ->]].
Qed.

Lemma coalesce_record_witness :
  exists r,
    coalesce_physical (RefDict {["schema" := Some "dw"; "column" := Some "c"]})
      (Some "sales") (Some "public") = Return r
    /\ schema r = Some "dw" /\ table r = Some "sales" /\ column r = Some "c".
Proof.
  destruct (coalesce_record {["schema" := Some "dw"; "column" := Some "c"]}
              (Some "sales") (Some "public"))
    as (r & Hr & Hs & _ & _ & Ht & Hc).
  exists r. split; [exact Hr|]. split; [|split].
  - apply Hs; [reflexivity | discriminate].
  - apply Ht. left. reflexivity.
  - rewrite Hc. reflexivity.
Defined.

(** C7: whatever [coalesce_physical] returns, fed back as the
    3-element list of its schema, table and column, comes back
    unchanged under any defaults. *)
Theorem coalesce_idempotent (x : rawref) (default_table default_schema : name)
    (r : PhysicalReference) :
  coalesce_physical x default_table default_schema = Return r ->
  forall default_table' default_schema',
    coalesce_physical (RefSeq [schema r; table r; column r])
      default_table' default_schema' = Return r.
Proof. intros _ ? ?. by destruct r. Qed.

Lemma coalesce_idempotent_witness :
  coalesce_physical
    (RefSeq [Some "public"; Some "dim_date"; Some "month_num"]) None None
  = Return (mkPhysicalReference (Some "public") (Some "dim_date")
              (Some "month_num")).
Proof.
  apply (coalesce_idempotent (RefStr "dim_date.month_num") (Some "sales")
           (Some "public")
           (mkPhysicalReference (Some "public") (Some "dim_date")
              (Some "month_num"))).
  reflexivity.
Defined.

(** ** Physical references *)

(** C4: the locale that [physical] works with.  With a non-empty list
    of declared locales it is the requested locale when that is one of
    them and the first declared locale otherwise; with no declared
    locale, or when reading the locales raises, it is [None] whatever
    was requested.  [physical] sees the requested locale only through
    this resolved locale, in the override lookup and in the column
    suffix alike. *)
Theorem physical_locale (attribute : Attribute) (locale : name) :
  (forall declared l, locales attribute = Return declared ->
     locale = Some l -> l ∈ declared ->
     resolve_locale attribute locale = Some l)
  /\ (forall first others, locales attribute = Return (first :: others) ->
        (forall l, locale = Some l -> l ∉ first :: others) ->
        resolve_locale attribute locale = Some first)
  /\ (locales attribute = Return [] -> resolve_locale attribute locale = None)
  /\ (forall e, locales attribute = Raise e ->
        resolve_locale attribute locale = None)
  /\ (forall self,
        physical self attribute locale
        = (reference ← mapped_reference self attribute
                          (resolve_locale attribute locale);
           mret (default
                   (default_reference self attribute
                      (resolve_locale attribute locale))
                   reference)))
  /\ (forall self locale',
        resolve_locale attribute locale = resolve_locale attribute locale' ->
        physical self attribute locale = physical self attribute locale').
Proof.
  unfold resolve_locale. repeat split.
  - intros declared l -> -> Hin.
    destruct declared as [|first others]; [by apply elem_of_nil in Hin|].
    rewrite bool_decide_true; [done|]. by apply list_elem_of_fmap_2.
  - intros first others -> Hout.
    rewrite bool_decide_false; [done|].
    intros (l & -> & Hin)%list_elem_of_fmap. by apply (Hout l).
  - by intros ->.
  - by intros e ->.
  - intros self. unfold physical.
    destruct (mapped_reference self attribute _) as [[reference|]|e]; done.
  - intros self locale' Heq. unfold physical, resolve_locale. by rewrite Heq.
Qed.

Lemma physical_locale_witness :
  let name_attribute :=
    mkAttribute "name" (Return ["en"; "sk"])
      (Some (mkDimension "date" false false)) in
  resolve_locale name_attribute (Some "sk") = Some "sk"
  /\ resolve_locale name_attribute (Some "fr") = Some "en".
Proof.
  intros name_attribute. split.
  - apply (proj1 (physical_locale name_attribute (Some "sk")) ["en"; "sk"] "sk");
      [reflexivity | reflexivity |].
    apply list_elem_of_In. simpl. auto.
  - apply (proj1 (proj2 (physical_locale name_attribute (Some "fr"))) "en" ["sk"]);
      [reflexivity|].
    intros l [= <-]. rewrite list_elem_of_In. simpl. intuition discriminate.
Defined.

(** C2, as worded, fails twice.  An entry whose raw value is empty is
    passed over for the default reference: with [{"amount": ""}] the
    measure [amount] maps to column ["amount"], not to the coalesced
    [""].  And an empty resolved locale adds nothing to the lookup key:
    with declared locales [[""]] the entry under ["amount."] is never
    consulted. *)
Lemma physical_override_empty_entry_or_locale :
  (exists self,
     Mapper_init (Some (mkCube (Some "sales") None [] [] []
                          (Some {["amount" := RefStr ""]})))
       None None (Some "public") None None None = Return self
     /\ ~ spec_override_claim self (mkAttribute "amount" (Return []) None) None)
  /\ (exists self,
        Mapper_init (Some (mkCube (Some "sales") None [] [] []
                             (Some {["amount." := RefStr "t.c"]})))
          None None (Some "public") None None None = Return self
        /\ ~ spec_override_claim self (mkAttribute "amount" (Return [""]) None)
               None).
Proof.
  split; (eexists; split; [reflexivity|]); intros Hclaim.
  - specialize (Hclaim {["amount" := RefStr ""]} (RefStr "")).
    assert (Hfull : {["amount" := RefStr ""]} ≠ (∅ : gmap string rawref))
      by apply insert_non_empty.
    assert (Hfound : ({["amount" := RefStr ""]} : gmap string rawref)
                       !! "amount" = Some (RefStr ""))
      by apply lookup_singleton_eq.
    specialize (Hclaim eq_refl Hfull Hfound).
    vm_compute in Hclaim. discriminate.
  - specialize (Hclaim {["amount." := RefStr "t.c"]} (RefStr "t.c")).
    assert (Hfull : {["amount." := RefStr "t.c"]} ≠ (∅ : gmap string rawref))
      by apply insert_non_empty.
    assert (Hfound : ({["amount." := RefStr "t.c"]} : gmap string rawref)
                       !! "amount." = Some (RefStr "t.c"))
      by apply lookup_singleton_eq.
    specialize (Hclaim eq_refl Hfull Hfound).
    vm_compute in Hclaim. discriminate.
Qed.

Lemma lookup_some_non_empty (mappings : gmap string rawref) (key : string)
    (raw : rawref) :
  mappings !! key = Some raw -> mappings <> ∅.
Proof. intros Hfound ->. by rewrite lookup_empty in Hfound. Qed.

(** What the override part returns on a found, non-empty entry. *)
Lemma mapped_reference_found (self : Mapper) (attribute : Attribute)
    (locale : name) (mappings : gmap string rawref) (raw : rawref) :
  cube_mappings (m_cube self) = Some mappings ->
  mappings !! with_locale (logical self attribute) "." locale = Some raw ->
  rawref_truthy raw = true ->
  mapped_reference self attribute locale
  = (reference ← coalesce_physical raw (m_fact_name self) (m_schema self);
     mret (Some reference)).
Proof.
  intros Hmappings Hfound Htruthy. unfold mapped_reference.
  rewrite Hmappings, bool_decide_true by eauto using lookup_some_non_empty.
  by rewrite Hfound, Htruthy.
Qed.

(** What the override part returns when nothing is found. *)
Lemma mapped_reference_missing (self : Mapper) (attribute : Attribute)
    (locale : name) :
  cube_mappings (m_cube self) = None
  \/ (exists mappings, cube_mappings (m_cube self) = Some mappings
        /\ mappings !! with_locale (logical self attribute) "." locale = None) ->
  mapped_reference self attribute locale = Return None.
Proof.
  unfold mapped_reference. intros [-> | (mappings & -> & Hmissing)]; [done|].
  rewrite Hmissing. by case_bool_decide.
Qed.

(** C2, amended: when the cube's override table holds a non-empty raw
    value under the attribute's logical reference (with ["." + locale]
    appended when the resolved locale is a non-empty string),
    [physical] returns that value coalesced with the mapper's fact
    table name and default schema as defaults.  With the table
    [{"date.month": "dim_date.month_num"}] and fact name ["sales"], the
    attribute [month] of the dimension [date] maps to
    [(schema, "dim_date", "month_num")]. *)
Theorem physical_override (self : Mapper) (attribute : Attribute)
    (locale : name) :
  (forall mappings key raw,
     cube_mappings (m_cube self) = Some mappings ->
     (truthy (resolve_locale attribute locale) = false
      /\ key = logical self attribute)
     \/ (exists l, resolve_locale attribute locale = Some l /\ l <> ""
           /\ key = logical self attribute ++ "." ++ l) ->
     mappings !! key = Some raw ->
     rawref_truthy raw = true ->
     physical self attribute locale
     = coalesce_physical raw (m_fact_name self) (m_schema self))
  /\ (forall d,
        cube_mappings (m_cube self)
        = Some {["date.month" := RefStr "dim_date.month_num"]} ->
        m_fact_name self = Some "sales" ->
        dimension attribute = Some d -> dimension_name d = "date" ->
        simplified self d = false ->
        attribute_name attribute = "month" ->
        locales attribute = Return [] ->
        physical self attribute locale
        = Return (mkPhysicalReference (m_schema self) (Some "dim_date")
                    (Some "month_num"))).
Proof.
  assert (Hgeneral : forall mappings raw,
            cube_mappings (m_cube self) = Some mappings ->
            mappings !! with_locale (logical self attribute) "."
                          (resolve_locale attribute locale) = Some raw ->
            rawref_truthy raw = true ->
            physical self attribute locale
            = coalesce_physical raw (m_fact_name self) (m_schema self)).
  { intros mappings raw Hmappings Hfound Htruthy. unfold physical.
    rewrite (mapped_reference_found _ _ _ _ _ Hmappings Hfound Htruthy).
    by destruct (coalesce_physical raw _ _). }
  split.
  - intros mappings key raw Hmappings Hkey Hfound Htruthy.
    apply (Hgeneral mappings raw Hmappings); [|done].
    destruct Hkey as [[Hnone ->] | (l & Hl & Hne & ->)].
    + by rewrite with_locale_falsy.
    + by rewrite Hl, with_locale_truthy.
  - intros d Hmappings Hfact Hdim Hname Hsimple Hattr Hlocales.
    rewrite (Hgeneral _ (RefStr "dim_date.month_num") Hmappings).
    + reflexivity.
    + unfold resolve_locale, logical, str_attribute.
      rewrite Hlocales, Hdim, Hsimple, Hname, Hattr. simpl.
      apply lookup_singleton_eq.
    + reflexivity.
Qed.

Lemma physical_override_witness :
  let cube := mkCube (Some "sales") None [] [] []
                (Some {["date.month" := RefStr "dim_date.month_num"]}) in
  let self := mkMapper cube None None (Some "sales") (Some "public") true None
                [] ∅ in
  Mapper_init (Some cube) None None (Some "public") None None None = Return self
  /\ physical self
       (mkAttribute "month" (Return [])
          (Some (mkDimension "date" false false))) (Some "en")
     = Return (mkPhysicalReference (Some "public") (Some "dim_date")
                 (Some "month_num")).
Proof.
  intros cube self. split; [reflexivity|].
  apply (proj2 (physical_override self
                  (mkAttribute "month" (Return [])
                     (Some (mkDimension "date" false false))) (Some "en"))
           (mkDimension "date" false false));
    reflexivity.
Defined.

(** C3, as worded, fails: an empty resolved locale adds no suffix.
    For the measure [amount] with declared locales [[""]] and no
    override table the column is ["amount"], not ["amount_"]. *)
Lemma physical_default_empty_locale :
  exists self,
    Mapper_init (Some (mkCube (Some "sales") None [] [] [] None))
      None None (Some "public") None None None = Return self
    /\ ~ spec_default_claim self (mkAttribute "amount" (Return [""]) None) None.
Proof.
  eexists. split; [reflexivity|]. intros Hclaim.
  specialize (Hclaim (or_introl eq_refl)).
  vm_compute in Hclaim. discriminate.
Qed.

(** The table of the default reference is the one the specification
    names. *)
Lemma default_reference_table (self : Mapper) (attribute : Attribute)
    (locale : name) :
  table (default_reference self attribute locale)
  = spec_table_name self attribute.
Proof.
  unfold default_reference, spec_table_name, str_dimension. simpl.
  destruct (dimension attribute) as [d|]; [|done].
  destruct (simplified self d); [done|]. simpl.
  by destruct (m_dimension_table_prefix self) as [[|c rest]|].
Qed.

(** C3, amended: when the cube has no override table, or the table has
    no entry under the lookup key, [physical] returns the default
    schema, the table of the convention (the dimension name, behind the
    dimension-table prefix when one is set, for an attribute of a
    dimension that is not simplified; the fact table name otherwise)
    and the attribute's name as column, with ["_" + locale] appended
    when the resolved locale is a non-empty string.  The fact measure
    [amount] under fact name ["sales"] maps to
    [(schema, "sales", "amount")]. *)
Theorem physical_default (self : Mapper) (attribute : Attribute)
    (locale : name) :
  (cube_mappings (m_cube self) = None
   \/ (exists mappings, cube_mappings (m_cube self) = Some mappings
         /\ mappings !! with_locale (logical self attribute) "."
                          (resolve_locale attribute locale) = None) ->
   exists column_name,
     physical self attribute locale
     = Return (mkPhysicalReference (m_schema self)
                 (spec_table_name self attribute) (Some column_name))
     /\ (forall l, resolve_locale attribute locale = Some l -> l <> "" ->
           column_name = attribute_name attribute ++ "_" ++ l)
     /\ (truthy (resolve_locale attribute locale) = false ->
           column_name = attribute_name attribute))
  /\ (cube_mappings (m_cube self) = None ->
      m_fact_name self = Some "sales" ->
      dimension attribute = None ->
      attribute_name attribute = "amount" ->
      locales attribute = Return [] ->
      physical self attribute locale
      = Return (mkPhysicalReference (m_schema self) (Some "sales")
                  (Some "amount"))).
Proof.
  assert (Hdefault :
            cube_mappings (m_cube self) = None
            \/ (exists mappings, cube_mappings (m_cube self) = Some mappings
                  /\ mappings !! with_locale (logical self attribute) "."
                                   (resolve_locale attribute locale) = None) ->
            physical self attribute locale
            = Return (default_reference self attribute
                        (resolve_locale attribute locale))).
  { intros Hmissing. unfold physical.
    by rewrite (mapped_reference_missing _ _ _ Hmissing). }
  split.
  - intros Hmissing. rewrite (Hdefault Hmissing).
    exists (with_locale (str_attribute attribute) "_"
              (resolve_locale attribute locale)).
    split; [|split].
    + rewrite <- (default_reference_table self attribute
                    (resolve_locale attribute locale)).
      reflexivity.
    + intros l -> Hne. by apply with_locale_truthy.
    + intros Hfalsy. by apply with_locale_falsy.
  - intros Hnone Hfact Hdim Hname Hlocales.
    rewrite (Hdefault (or_introl Hnone)).
    unfold default_reference, resolve_locale, str_attribute.
    by rewrite Hlocales, Hdim, Hfact, Hname.
Qed.

Lemma physical_default_witness :
  let cube := mkCube (Some "sales") None [] [] [] None in
  let self := mkMapper cube None None (Some "sales") (Some "public") true None
                [] ∅ in
  Mapper_init (Some cube) None None (Some "public") None None None = Return self
  /\ physical self (mkAttribute "amount" (Return []) None) None
     = Return (mkPhysicalReference (Some "public") (Some "sales")
                 (Some "amount")).
Proof.
  intros cube self. split; [reflexivity|].
  apply (proj2 (physical_default self (mkAttribute "amount" (Return []) None)
                  None));
    reflexivity.
Defined.

(** [physical] reads nothing of the mapper but its cube, fact name,
    schema, simplification flag and dimension-table prefix. *)
Lemma physical_reads (self self' : Mapper) (attribute : Attribute)
    (locale : name) :
  m_cube self = m_cube self' ->
  m_fact_name self = m_fact_name self' ->
  m_schema self = m_schema self' ->
  m_simplify_dimension_references self = m_simplify_dimension_references self' ->
  m_dimension_table_prefix self = m_dimension_table_prefix self' ->
  physical self attribute locale = physical self' attribute locale.
Proof.
  intros Hcube Hfact Hschema Hsimplify Hprefix.
  unfold physical, mapped_reference, default_reference, logical, simplified.
  by rewrite Hcube, Hfact, Hschema, Hsimplify, Hprefix.
Qed.

(** The constructor's [mappings] argument reaches the [m_mappings]
    field of the mapper and nothing else. *)
Lemma Mapper_init_mappings (cube : option Cube)
    (mappings mappings' : option (gmap string rawref))
    (locale schema fact_name dimension_prefix : name)
    (joins : option (list RawJoin)) :
  match Mapper_init cube mappings locale schema fact_name dimension_prefix joins,
        Mapper_init cube mappings' locale schema fact_name dimension_prefix joins
  with
  | Return self, Return self' =>
      m_mappings self = mappings /\ m_mappings self' = mappings'
      /\ m_cube self = m_cube self' /\ m_fact_name self = m_fact_name self'
      /\ m_schema self = m_schema self'
      /\ m_simplify_dimension_references self
         = m_simplify_dimension_references self'
      /\ m_dimension_table_prefix self = m_dimension_table_prefix self'
      /\ m_joins self = m_joins self'
      /\ m_attributes self = m_attributes self'
  | Raise e, Raise e' => e = e'
  | _, _ => False
  end.
Proof.
  destruct cube as [cube|]; [|done].
  unfold Mapper_init, _collect_joins. simpl.
  destruct (collect_joins_loop _ _ _) as [collected|e]; simpl; [|done].
  repeat split.
Qed.

(** C8: [physical] never reads the mappings the mapper was constructed
    with, only the cube's own.  Replacing the stored mappings leaves
    every result of [physical] unchanged, and two mappers constructed
    alike but for the [mappings] argument either both fail to be
    constructed, with the same exception, or answer [physical] alike. *)
Theorem physical_ignores_constructor_mappings (attribute : Attribute)
    (locale' : name) :
  (forall self mappings,
     physical (mkMapper (m_cube self) mappings (m_locale self)
                 (m_fact_name self) (m_schema self)
                 (m_simplify_dimension_references self)
                 (m_dimension_table_prefix self) (m_joins self)
                 (m_attributes self)) attribute locale'
     = physical self attribute locale')
  /\ (forall cube mappings mappings' locale schema fact_name dimension_prefix
        joins,
        (self ← Mapper_init cube mappings locale schema fact_name
                  dimension_prefix joins;
         physical self attribute locale')
        = (self ← Mapper_init cube mappings' locale schema fact_name
                    dimension_prefix joins;
           physical self attribute locale')).
Proof.
  split.
  - intros self mappings. by apply physical_reads.
  - intros cube mappings mappings' locale schema fact_name dimension_prefix
      joins.
    pose proof (Mapper_init_mappings cube mappings mappings' locale schema
                  fact_name dimension_prefix joins) as Hinit.
    destruct (Mapper_init cube mappings _ _ _ _ _) as [self|e],
             (Mapper_init cube mappings' _ _ _ _ _) as [self'|e'];
      simpl; try done.
    + destruct Hinit as (_ & _ & Hcube & Hfact & Hschema & Hsimplify & Hprefix & _).
      by apply physical_reads.
    + by rewrite Hinit.
Qed.

(** ** Table map *)

Lemma invalid_detail_spec (fact_name : name) (join : Join) :
  invalid_detail fact_name join = true
  <-> table (detail join) = None \/ table (detail join) = Some ""
      \/ table (detail join) = fact_name.
Proof.
  unfold invalid_detail.
  rewrite orb_true_iff, negb_true_iff, truthy_false, bool_decide_eq_true.
  tauto.
Qed.

Lemma table_map_loop_raises (fact_name : name) (joins : list Join)
    (tables : gmap tablekey tablekey) :
  raises (table_map_loop fact_name joins tables) = true
  <-> Exists (fun join => invalid_detail fact_name join = true) joins.
Proof.
  revert tables. induction joins as [|join rest IH]; intros tables; simpl.
  - split; [discriminate | by intros ?%Exists_nil].
  - rewrite Exists_cons. destruct (invalid_detail fact_name join); simpl.
    + tauto.
    + rewrite IH. split; [tauto | by intros [?|?]].
Qed.

Lemma table_map_loop_error (fact_name : name) (joins : list Join)
    (tables : gmap tablekey tablekey) (e : exn) :
  table_map_loop fact_name joins tables = Raise e ->
  e = ValueError detail_message.
Proof.
  revert tables. induction joins as [|join rest IH]; intros tables; simpl.
  - discriminate.
  - destruct (invalid_detail fact_name join); [congruence | apply IH].
Qed.

(** A successful run of the loop has written the entries of every
    join, in order, over the initial table. *)
Lemma table_map_loop_returns (fact_name : name) (joins : list Join)
    (tables tables' : gmap tablekey tablekey) :
  table_map_loop fact_name joins tables = Return tables' ->
  tables'
  = foldl (fun tables entry => <[entry.1 := entry.2]> tables) tables
      (joins ≫= join_entries).
Proof.
  revert tables. induction joins as [|join rest IH]; intros tables; simpl.
  - congruence.
  - destruct (invalid_detail fact_name join); [discriminate|].
    intros Hrest. by rewrite (IH _ Hrest).
Qed.

Lemma foldl_insert_lookup (entries : list (tablekey * tablekey))
    (tables : gmap tablekey tablekey) (key value : tablekey) :
  foldl (fun tables entry => <[entry.1 := entry.2]> tables) tables entries
    !! key = Some value ->
  tables !! key = Some value \/ (key, value) ∈ entries.
Proof.
  revert tables. induction entries as [|[k v] rest IH]; intros tables; simpl.
  - auto.
  - intros [Hold | Hin]%IH.
    + destruct (decide (k = key)) as [->|Hne].
      * rewrite lookup_insert_eq in Hold. injection Hold as ->.
        right. apply elem_of_cons. by left.
      * rewrite lookup_insert_ne in Hold by done. by left.
    + right. apply elem_of_cons. by right.
Qed.

Lemma foldl_insert_dom (entries : list (tablekey * tablekey))
    (tables : gmap tablekey tablekey) :
  dom (foldl (fun tables entry => <[entry.1 := entry.2]> tables) tables entries)
  = dom tables ∪ list_to_set entries.*1.
Proof.
  revert tables. induction entries as [|[k v] rest IH]; intros tables; simpl.
  - by rewrite (right_id_L ∅ (∪)).
  - by rewrite IH, dom_insert_L, (comm_L (∪) {[k]}), <- (assoc_L (∪)).
Qed.

(** C6: [table_map] raises exactly when some collected join has a
    detail table that is [None], empty or the fact table name, and the
    exception is then the [ValueError] of the guard: nothing of the map
    built so far is returned.  The method only reads the mapper, so the
    mapper after a failed call is the mapper before it.  A map that is
    returned has the fact table, every master side and every detail
    side as its keys, and each of its values was written for the fact
    table or for one of the joins. *)
Theorem table_map_atomic (self : Mapper) :
  (raises (table_map self) = true
   <-> exists join, join ∈ m_joins self
         /\ (table (detail join) = None \/ table (detail join) = Some ""
             \/ table (detail join) = m_fact_name self))
  /\ (forall e, table_map self = Raise e -> e = ValueError detail_message)
  /\ (forall tables, table_map self = Return tables ->
        dom tables
        = {[ (m_schema self, m_fact_name self) ]}
          ∪ list_to_set (master_key <$> m_joins self)
          ∪ list_to_set (detail_key <$> m_joins self)
        /\ (forall key value, tables !! key = Some value ->
              (key = (m_schema self, m_fact_name self) /\ value = key)
              \/ (exists join, join ∈ m_joins self
                    /\ ((key = master_key join /\ value = key)
                        \/ (key = detail_key join
                            /\ value = (schema (detail join),
                                        table (detail join))))))).
Proof.
  unfold table_map. split; [|split].
  - rewrite table_map_loop_raises, Exists_exists.
    by setoid_rewrite invalid_detail_spec.
  - intros e. apply table_map_loop_error.
  - intros tables ->%table_map_loop_returns. split.
    + rewrite foldl_insert_dom, dom_singleton_L.
      apply set_eq. intros key.
      rewrite !elem_of_union, !elem_of_list_to_set, !list_elem_of_fmap.
      setoid_rewrite list_elem_of_bind. unfold join_entries.
      split.
      * intros [?|([k v] & -> & join & Hentry & Hjoin)]; [by auto|].
        rewrite !elem_of_cons in Hentry.
        destruct Hentry as [[= -> ->]|[[= -> ->]|[]%elem_of_nil]]; eauto.
      * intros [[?|(join & -> & Hjoin)]|(join & -> & Hjoin)]; [by auto|..];
          right; eexists (_, _); (split; [reflexivity|]);
          exists join; rewrite !elem_of_cons; eauto.
    + intros key value [Hfact|Hentry]%foldl_insert_lookup.
      * apply lookup_singleton_Some in Hfact as [<- <-]. by left.
      * right. apply list_elem_of_bind in Hentry as (join & Hentry & Hjoin).
        exists join. split; [done|]. unfold join_entries in Hentry.
        rewrite !elem_of_cons in Hentry.
        destruct Hentry as [[= -> ->]|[[= -> ->]|[]%elem_of_nil]]; auto.
Qed.

Lemma table_map_atomic_witness :
  let bad := mkJoin (mkPhysicalReference None (Some "sales") (Some "date_id"))
               (mkPhysicalReference None (Some "sales") (Some "id")) None in
  let self := mkMapper (mkCube (Some "sales") None [] [] [] None) None None
                (Some "sales") (Some "public") true None [bad] ∅ in
  raises (table_map self) = true
  /\ table_map self = Raise (ValueError detail_message).
Proof.
  intros bad self.
  assert (Hraises : raises (table_map self) = true).
  { apply (proj1 (table_map_atomic self)). exists bad. split.
    - apply list_elem_of_In. simpl. auto.
    - right. right. reflexivity. }
  split; [exact Hraises|].
  destruct (table_map self) as [tables|e] eqn:Hcall; [discriminate|].
  f_equal. exact (proj1 (proj2 (table_map_atomic self)) e Hcall).
Defined.

(** ** Join collection *)

Lemma coalesce_without_schema (r : rawref) (default_table : name)
    (ref : PhysicalReference) :
  without_schema r = true ->
  coalesce_physical r default_table None = Return ref ->
  schema ref = None.
Proof.
  destruct r as [s|d|items]; simpl; [|discriminate|].
  - intros _. destruct (split_dot s) as [|piece [|piece' pieces]];
      by intros [= <-].
  - destruct items as [|t [|c [|x rest]]]; try discriminate.
    by intros _ [= <-].
Qed.

(** The loop of [_collect_joins] appends one coalesced join per raw
    join, in order. *)
Lemma collect_joins_loop_returns (fact_name : name) (raws : list RawJoin)
    (collected joins : list Join) :
  collect_joins_loop fact_name raws collected = Return joins ->
  exists new,
    joins = (collected ++ new)%list
    /\ Forall2 (fun raw join => collect_join fact_name raw = Return join)
         raws new.
Proof.
  revert collected. induction raws as [|raw rest IH]; intros collected; simpl.
  - intros [= <-]. exists []. by rewrite app_nil_r.
  - destruct (collect_join fact_name raw) as [join|e] eqn:Hjoin; simpl;
      [|discriminate].
    intros (new & -> & Hnew)%IH. exists (join :: new).
    rewrite <- app_assoc. split; [done|]. by constructor.
Qed.

Lemma collect_join_returns (fact_name : name) (raw : RawJoin) (join : Join) :
  collect_join fact_name raw = Return join ->
  exists m d,
    raw_master raw = Some m /\ raw_detail raw = Some d
    /\ coalesce_physical m fact_name None = Return (master join)
    /\ coalesce_physical d None None = Return (detail join)
    /\ alias join = raw_alias raw.
Proof.
  unfold collect_join.
  destruct (raw_master raw) as [m|]; simpl; [|discriminate].
  destruct (coalesce_physical m fact_name None) as [pm|e] eqn:Hm; simpl;
    [|discriminate].
  destruct (raw_detail raw) as [d|]; simpl; [|discriminate].
  destruct (coalesce_physical d None None) as [pd|e] eqn:Hd; simpl;
    [|discriminate].
  intros [= <-]. by exists m, d.
Qed.

(** C9: a constructed mapper keeps its configured schema and holds one
    join per raw join, in order, whose master is the raw master
    coalesced with the fact table name as default table and no default
    schema, and whose detail is the raw detail coalesced with no
    default at all.  A side given as a string or as a 2-element list
    therefore has schema [None] whatever schema the mapper was
    configured with, and a reference can equal such a join's detail key
    only if its own schema is [None]. *)
Theorem collected_joins_have_no_schema (cube : option Cube)
    (mappings : option (gmap string rawref))
    (locale configured fact_name dimension_prefix : name)
    (raws : list RawJoin) (self : Mapper) :
  Mapper_init cube mappings locale configured fact_name dimension_prefix
    (Some raws) = Return self ->
  m_schema self = configured
  /\ Forall2
       (fun raw join =>
          exists m d,
            raw_master raw = Some m /\ raw_detail raw = Some d
            /\ coalesce_physical m (m_fact_name self) None
               = Return (master join)
            /\ coalesce_physical d None None = Return (detail join)
            /\ alias join = raw_alias raw
            /\ (without_schema m = true -> schema (master join) = None)
            /\ (without_schema d = true ->
                schema (detail join) = None
                /\ forall ref : PhysicalReference,
                     (schema ref, table ref) = detail_key join ->
                     schema ref = None))
       raws (m_joins self).
Proof.
  destruct cube as [cube|]; [|discriminate].
  unfold Mapper_init, _collect_joins. simpl.
  destruct (collect_joins_loop _ raws []) as [joins|e] eqn:Hloop; simpl;
    [|discriminate].
  intros [= <-]. simpl. split; [done|].
  apply collect_joins_loop_returns in Hloop as (new & -> & Hnew). simpl.
  eapply Forall2_impl; [exact Hnew|].
  intros raw join (m & d & Hm & Hd & Hmaster & Hdetail & Halias)%collect_join_returns.
  exists m, d. repeat (split; [done|]). split.
  - intros Hshape. by eapply coalesce_without_schema.
  - intros Hshape.
    assert (schema (detail join) = None) as Hnone
      by by eapply coalesce_without_schema.
    split; [done|]. intros ref [= Hschema _]. by rewrite Hschema.
Qed.

Lemma collected_joins_have_no_schema_witness :
  let raw := mkRawJoin (Some (RefSeq [Some "sales"; Some "date_id"]))
               (Some (RefStr "dim_date.id")) (Some "d") in
  let join := mkJoin (mkPhysicalReference None (Some "sales") (Some "date_id"))
                (mkPhysicalReference None (Some "dim_date") (Some "id"))
                (Some "d") in
  let self := mkMapper (mkCube (Some "sales") None [] [] [] None) None None
                (Some "sales") (Some "public") true None [join] ∅ in
  m_schema self = Some "public"
  /\ schema (master join) = None /\ schema (detail join) = None.
Proof.
  intros raw join self.
  destruct (collected_joins_have_no_schema
              (Some (mkCube (Some "sales") None [] [] [] None)) None None
              (Some "public") None None [raw] self eq_refl)
    as [Hschema Hjoins].
  split; [exact Hschema|].
  apply Forall2_cons_1 in Hjoins as
    [(m & d & Hm & Hd & _ & _ & _ & Hmaster & Hdetail) _].
  injection Hm as <-. injection Hd as <-.
  split; [exact (Hmaster eq_refl) | exact (proj1 (Hdetail eq_refl))].
Defined.

(** ** Relevant joins: one turn of the loop *)

Lemma first_match_cons (table : tablekey) (join : Join) (rest : list Join) :
  first_match table (join :: rest)
  = if bool_decide (table = detail_key join) then Some join
    else first_match table rest.
Proof.
  unfold first_match. simpl. case_bool_decide as Heq.
  - by rewrite decide_True.
  - rewrite decide_False by done. by destruct (list_find _ rest) as [[i j]|].
Qed.

Lemma first_match_Some (table : tablekey) (candidates : list Join)
    (join : Join) :
  first_match table candidates = Some join
  <-> exists before after,
        candidates = (before ++ join :: after)%list
        /\ Forall (fun other => detail_key other <> table) before
        /\ detail_key join = table.
Proof.
  induction candidates as [|first rest IH].
  - split; [discriminate|]. intros (before & after & Heq & _).
    by destruct before.
  - rewrite first_match_cons. case_bool_decide as Hfirst.
    + split.
      * intros [= ->]. by exists [], rest.
      * intros ([|other before] & after & Heq & Hbefore & Hjoin).
        -- by injection Heq as -> _.
        -- injection Heq as -> _. apply Forall_cons in Hbefore as [Hne _].
           by destruct Hne.
    + rewrite IH. split.
      * intros (before & after & -> & Hbefore & Hjoin).
        exists (first :: before), after. split; [done|]. split; [|done].
        constructor; [congruence | done].
      * intros ([|other before] & after & Heq & Hbefore & Hjoin).
        -- injection Heq as -> _. by destruct Hfirst.
        -- injection Heq as -> ->. apply Forall_cons in Hbefore as [_ Hbefore].
           by exists before, after.
Qed.

Lemma first_match_None (table : tablekey) (candidates : list Join) :
  first_match table candidates = None
  <-> Forall (fun other => detail_key other <> table) candidates.
Proof.
  induction candidates as [|first rest IH].
  - split; [constructor | done].
  - rewrite first_match_cons, Forall_cons. case_bool_decide as Hfirst.
    + split; [discriminate | intros [Hne _]; by destruct Hne].
    + rewrite IH. split; [|tauto]. intros Hrest. split; [congruence | done].
Qed.

Lemma first_match_detail (table : tablekey) (candidates : list Join)
    (join : Join) :
  first_match table candidates = Some join ->
  join ∈ candidates /\ detail_key join = table.
Proof.
  intros (before & after & -> & _ & Hkey)%first_match_Some.
  split; [|done]. apply elem_of_app. right. apply elem_of_cons. by left.
Qed.

(** The [for] loop takes the first matching join, if there is one. *)
Lemma scan_joins_first_match (table : tablekey) (candidates : list Join)
    (st : JoinSearch) :
  scan_joins table candidates st
  = match first_match table candidates with
    | Some join =>
        mkJoinSearch
          (if bool_decide (master_key join ∈ joined_tables st)
           then tables_to_join st
           else tables_to_join st ∪ {[ master_key join ]})
          (joined_tables st ∪ {[ table ]})
          (joins st ++ [join])
    | None => st
    end.
Proof.
  induction candidates as [|join rest IH]; [done|].
  rewrite first_match_cons. simpl. case_bool_decide as Hmatch; [|done].
  subst table. simpl. by repeat case_bool_decide.
Qed.

Lemma join_table_unfold (self : Mapper) (table : tablekey) (st : JoinSearch) :
  join_table self table st
  = match first_match table (m_joins self) with
    | Some join =>
        mkJoinSearch
          (if bool_decide (master_key join ∈ joined_tables st)
           then tables_to_join st ∖ {[ table ]}
           else tables_to_join st ∖ {[ table ]} ∪ {[ master_key join ]})
          (joined_tables st ∪ {[ table ]})
          (joins st ++ [join])
    | None =>
        mkJoinSearch (tables_to_join st ∖ {[ table ]}) (joined_tables st)
          (joins st)
    end.
Proof.
  unfold join_table. rewrite scan_joins_first_match.
  by destruct (first_match table (m_joins self)).
Qed.

(** Once the work set is empty the loop has stopped. *)
Lemma search_finished (self : Mapper) (st st' : JoinSearch) :
  tables_to_join st = ∅ -> rtc (search_step self) st st' -> st' = st.
Proof.
  intros Hempty Hrun. destruct Hrun as [|st st1 st' Hstep _]; [done|].
  destruct Hstep as [table st Hin]. rewrite Hempty in Hin.
  by apply elem_of_empty in Hin.
Qed.

(** A run from a work set of one table begins by popping that table. *)
Lemma search_single (self : Mapper) (table : tablekey) (st st' : JoinSearch) :
  (forall other, other ∈ tables_to_join st <-> other = table) ->
  rtc (search_step self) st st' -> tables_to_join st' = ∅ ->
  rtc (search_step self) (join_table self table st) st'.
Proof.
  intros Honly Hrun Hempty. destruct Hrun as [|st st1 st' Hstep Hrest].
  - assert (table ∈ (∅ : gset tablekey)) as []%elem_of_empty.
    rewrite <- Hempty. by apply Honly.
  - destruct Hstep as [popped st Hin]. apply Honly in Hin. by subst popped.
Qed.

(** ** Relevant joins: termination *)

Lemma size_remove (s : gset tablekey) (x : tablekey) :
  x ∈ s -> size s = S (size (s ∖ {[ x ]})).
Proof.
  intros Hin. rewrite (union_difference_singleton_L x s Hin) at 1.
  rewrite size_union, size_singleton; [done|]. set_solver.
Qed.

Lemma size_add (s : gset tablekey) (x : tablekey) :
  size (s ∪ {[ x ]}) <= S (size s).
Proof.
  rewrite size_union_alt.
  pose proof (subseteq_size ({[ x ]} ∖ s) ({[ x ]} : gset tablekey)) as Hle.
  rewrite size_singleton in Hle. specialize (Hle ltac:(set_solver)). lia.
Qed.

Lemma size_list_to_set_le (keys : list tablekey) :
  size (list_to_set keys : gset tablekey) <= length keys.
Proof.
  induction keys as [|key rest IH].
  - by rewrite list_to_set_nil, size_empty.
  - rewrite list_to_set_cons, (comm_L (∪)). simpl.
    pose proof (size_add (list_to_set rest) key). lia.
Qed.

Lemma search_start_invariant (self : Mapper)
    (attributes : list PhysicalReference) :
  search_invariant self (search_start attributes).
Proof. intros table join _ Hjoined. by apply elem_of_empty in Hjoined. Qed.

Lemma search_start_measure (self : Mapper)
    (attributes : list PhysicalReference) :
  search_measure self (search_start attributes) <= search_bound self attributes.
Proof.
  unfold search_measure, search_bound, search_start, detail_keys. simpl.
  pose proof (size_list_to_set_le
                ((fun ref => (schema ref, table ref)) <$> attributes)) as Hwork.
  pose proof (size_list_to_set_le (detail_key <$> m_joins self)) as Hdetail.
  rewrite length_fmap in Hwork. rewrite length_fmap in Hdetail.
  pose proof (subseteq_size
                (list_to_set (detail_key <$> m_joins self) ∖ ∅)
                (list_to_set (detail_key <$> m_joins self) : gset tablekey))
    as Hsub.
  specialize (Hsub ltac:(set_solver)). lia.
Qed.

(** A turn of the loop keeps the invariant. *)
Lemma join_table_invariant (self : Mapper) (table : tablekey)
    (st : JoinSearch) :
  search_invariant self st -> search_invariant self (join_table self table st).
Proof.
  intros Hinv other join. rewrite join_table_unfold.
  destruct (first_match table (m_joins self)) as [taken|] eqn:Htaken; simpl.
  - intros Hwork Hjoined Hother.
    destruct (decide (other = table)) as [->|Hne].
    + assert (join = taken) as -> by congruence.
      case_bool_decide as Hmaster; [set_solver|].
      apply elem_of_union in Hwork as [Hwork|Hwork]; set_solver.
    + apply elem_of_union. left. apply (Hinv other join); [|set_solver|done].
      case_bool_decide; set_solver.
  - intros Hwork Hjoined Hother. apply (Hinv other join); [set_solver|done..].
Qed.

(** A turn of the loop decreases the measure. *)
Lemma join_table_measure (self : Mapper) (table : tablekey) (st : JoinSearch) :
  search_invariant self st -> table ∈ tables_to_join st ->
  search_measure self (join_table self table st) < search_measure self st.
Proof.
  intros Hinv Hwork. unfold search_measure. rewrite join_table_unfold.
  pose proof (size_remove _ _ Hwork) as Hpop.
  destruct (first_match table (m_joins self)) as [taken|] eqn:Htaken; simpl;
    [|lia].
  destruct (decide (table ∈ joined_tables st)) as [Hjoined|Hfresh].
  - rewrite bool_decide_true by by apply (Hinv table taken).
    replace (joined_tables st ∪ {[ table ]}) with (joined_tables st)
      by set_solver.
    lia.
  - apply first_match_detail in Htaken as [Hin Hkey].
    assert (table ∈ detail_keys self ∖ joined_tables st) as Hdetail.
    { apply elem_of_difference. split; [|done].
      apply elem_of_list_to_set, list_elem_of_fmap. by exists taken. }
    apply size_remove in Hdetail.
    replace (detail_keys self ∖ (joined_tables st ∪ {[ table ]}))
      with (detail_keys self ∖ joined_tables st ∖ {[ table ]}).
    2: { apply set_eq. intros other.
         rewrite !elem_of_difference, elem_of_union. tauto. }
    case_bool_decide; [lia|].
    pose proof (size_add (tables_to_join st ∖ {[ table ]}) (master_key taken)).
    lia.
Qed.

(** The measure bounds the number of turns of any run. *)
Lemma search_run_measure (self : Mapper) (n : nat) (st st' : JoinSearch) :
  search_invariant self st -> nsteps (search_step self) n st st' ->
  search_invariant self st'
  /\ n + search_measure self st' <= search_measure self st
  /\ length (joins st') <= length (joins st) + n.
Proof.
  intros Hinv Hrun. induction Hrun as [st|n st st1 st' Hstep Hrun IH].
  - split; [done|]. lia.
  - destruct Hstep as [table st Hwork].
    pose proof (join_table_measure self table st Hinv Hwork) as Hless.
    destruct (IH (join_table_invariant self table st Hinv))
      as (Hinv' & Hmeasure & Hlength).
    split; [done|]. split; [lia|].
    rewrite join_table_unfold in Hlength.
    destruct (first_match table (m_joins self)); simpl in Hlength;
      rewrite ?length_app in Hlength; simpl in Hlength; lia.
Qed.

(** [set.pop] on a non-empty set returns one of its elements. *)
Lemma set_pop_elem (pick : nat) (s : gset tablekey) :
  s <> ∅ -> exists table, set_pop pick s = Some table /\ table ∈ s.
Proof.
  intros Hne. unfold set_pop.
  assert (size s <> 0) as Hsize.
  { intros Hzero%size_empty_iff. by apply leibniz_equiv in Hzero. }
  destruct (lookup_lt_is_Some_2 (elements s) (pick mod size s))
    as [table Htable].
  { apply Nat.mod_upper_bound. exact Hsize. }
  exists table. split; [done|].
  apply elem_of_elements. by eapply list_elem_of_lookup_2.
Qed.

(** With fuel for the measure the loop runs to the end, along a run of
    the step relation. *)
Lemma search_loop_total (self : Mapper) (picks : nat -> nat) (fuel i : nat)
    (st : JoinSearch) :
  search_invariant self st -> search_measure self st <= fuel ->
  exists st',
    search_loop self picks fuel i st = Some st'
    /\ rtc (search_step self) st st' /\ tables_to_join st' = ∅.
Proof.
  revert i st. induction fuel as [|fuel IH]; intros i st Hinv Hfuel.
  - exists st. unfold search_measure in Hfuel.
    assert (size (tables_to_join st) = 0) as Hempty%size_empty_iff by lia.
    apply leibniz_equiv in Hempty. simpl. by rewrite bool_decide_true.
  - simpl. case_bool_decide as Hempty; [by exists st|].
    destruct (set_pop_elem (picks i) _ Hempty) as (table & -> & Hwork).
    pose proof (join_table_measure self table st Hinv Hwork) as Hless.
    destruct (IH (S i) (join_table self table st)) as (st' & Hloop & Hrun & Hend).
    + by apply join_table_invariant.
    + lia.
    + exists st'. split; [done|]. split; [|done].
      eapply rtc_l; [|exact Hrun]. by constructor.
Qed.

(** Under any pop order and with fuel for the bound, [relevant_joins]
    returns a result of the loop. *)
Lemma relevant_joins_total (self : Mapper) (picks : nat -> nat) (extra : nat)
    (attributes : list PhysicalReference) :
  exists result,
    relevant_joins self picks (search_bound self attributes + extra) attributes
    = Some result
    /\ relevant_joins_returns self attributes result.
Proof.
  destruct (search_loop_total self picks
              (search_bound self attributes + extra) 0 (search_start attributes))
    as (st & Hloop & Hrun & Hend).
  - apply search_start_invariant.
  - pose proof (search_start_measure self attributes). lia.
  - exists (joins st). unfold relevant_joins. rewrite Hloop.
    split; [done|]. by exists st.
Qed.

(** ** Relevant joins: the claims *)

Lemma search_start_single (ref : PhysicalReference) (other : tablekey) :
  other ∈ tables_to_join (search_start [ref]) <-> other = (schema ref, table ref).
Proof.
  unfold search_start. simpl. rewrite elem_of_union, elem_of_singleton.
  split; [|by left]. intros [?|[]%elem_of_empty]. done.
Qed.

(** C10: [relevant_joins] terminates.  No run of the loop from the
    references takes more turns than there are references plus twice
    the collected joins; as long as the work set is not empty a turn
    can be taken; so under every pop order the loop, given that many
    turns, leaves the work set empty and returns, and what it returns
    is a list no longer than the bound.  A table marked as joined never
    enters the work set again: after any turn it is in the work set
    only if it was there before, and joined tables stay joined. *)
Theorem relevant_joins_terminates (self : Mapper)
    (attributes : list PhysicalReference) :
  (forall n st,
     nsteps (search_step self) n (search_start attributes) st ->
     n <= search_bound self attributes)
  /\ (forall st, tables_to_join st <> ∅ -> exists st', search_step self st st')
  /\ (forall picks extra,
        exists result,
          relevant_joins self picks (search_bound self attributes + extra)
            attributes = Some result
          /\ relevant_joins_returns self attributes result)
  /\ (forall result,
        relevant_joins_returns self attributes result ->
        length result <= search_bound self attributes)
  /\ (forall st st' joined,
        search_step self st st' -> joined ∈ joined_tables st ->
        joined ∈ joined_tables st'
        /\ (joined ∈ tables_to_join st' -> joined ∈ tables_to_join st)).
Proof.
  pose proof (search_start_measure self attributes) as Hbound.
  pose proof (search_start_invariant self attributes) as Hinv.
  split; [|split; [|split; [|split]]].
  - intros n st Hrun.
    destruct (search_run_measure self n _ st Hinv Hrun) as (_ & Hmeasure & _).
    lia.
  - intros st Hwork.
    destruct (set_pop_elem 0 _ Hwork) as (popped & _ & Hin).
    eexists. by constructor.
  - intros picks extra. apply relevant_joins_total.
  - intros result (st & Hrun & _ & <-).
    apply rtc_nsteps in Hrun as [n Hrun].
    destruct (search_run_measure self n _ st Hinv Hrun)
      as (_ & Hmeasure & Hlength).
    simpl in Hlength. lia.
  - intros st st' joined Hstep Hjoined.
    destruct Hstep as [popped st Hwork]. rewrite join_table_unfold.
    destruct (first_match popped (m_joins self)) as [join|]; simpl.
    + split; [apply elem_of_union; by left|].
      case_bool_decide as Hmaster.
      * intros Hin%elem_of_difference. tauto.
      * intros [Hin%elem_of_difference|Hin%elem_of_singleton]%elem_of_union;
          [tauto|]. by subst joined.
    + split; [done|]. intros Hin%elem_of_difference. tauto.
Qed.

Lemma relevant_joins_terminates_witness :
  let join := mkJoin (mkPhysicalReference None (Some "sales") (Some "date_id"))
                (mkPhysicalReference None (Some "dim_date") (Some "id"))
                (Some "d") in
  let self := mkMapper (mkCube (Some "sales") None [] [] [] None) None None
                (Some "sales") (Some "public") true None [join] ∅ in
  let attributes := [mkPhysicalReference None (Some "d") (Some "month")] in
  (exists result, relevant_joins self (fun _ => 0) 3 attributes = Some result)
  /\ 0 <= search_bound self attributes.
Proof.
  intros join self attributes.
  pose proof (relevant_joins_terminates self attributes)
    as (Hturns & _ & Hreturns & _).
  split.
  - destruct (Hreturns (fun _ => 0) 0) as (result & Hresult & _).
    exists result. exact Hresult.
  - apply (Hturns 0 (search_start attributes)). constructor.
Defined.

(** * Further properties of the module *)

(** ** Splitting on dots *)

Lemma split_dot_no_dot (s : string) : has_dot s = false -> split_dot s = [s].
Proof.
  induction s as [|c rest IH]; [done|]. simpl.
  intros [Hc Hrest]%orb_false_iff. rewrite Hc. by rewrite (IH Hrest).
Qed.

Lemma split_dot_prefix (prefix rest : string) :
  has_dot prefix = false ->
  split_dot (prefix ++ "." ++ rest) = prefix :: split_dot rest.
Proof.
  induction prefix as [|c prefix IH]; [done|]. simpl.
  intros [Hc Hprefix]%orb_false_iff. rewrite Hc. by rewrite (IH Hprefix).
Qed.

(** A string with a dot splits at its first dot. *)
Lemma has_dot_split (s : string) :
  has_dot s = true ->
  exists prefix rest,
    s = prefix ++ "." ++ rest /\ has_dot prefix = false.
Proof.
  induction s as [|c s IH]; [discriminate|]. simpl.
  destruct (Ascii.eqb_spec c ".") as [->|Hc]; simpl.
  - intros _. by exists "", s.
  - intros (prefix & rest & -> & Hprefix)%IH.
    exists (String c prefix), rest. split; [done|]. simpl.
    apply orb_false_iff. split; [|done]. by apply Ascii.eqb_neq.
Qed.

Lemma has_dot_append (prefix rest : string) :
  has_dot (prefix ++ "." ++ rest) = true.
Proof.
  induction prefix as [|c prefix IH]; [done|]. simpl. rewrite IH.
  apply orb_true_r.
Qed.

Lemma coalesce_string_whole (s : string) (default_table default_schema : name) :
  has_dot s = false ->
  coalesce_physical (RefStr s) default_table default_schema
  = Return (mkPhysicalReference default_schema default_table (Some s)).
Proof. intros Hs. simpl. by rewrite (split_dot_no_dot s Hs). Qed.

Lemma coalesce_string_cut (t c : string) (default_table default_schema : name) :
  has_dot t = false ->
  coalesce_physical (RefStr (t ++ "." ++ c)) default_table default_schema
  = Return (mkPhysicalReference default_schema (Some t) (Some c)).
Proof.
  intros Ht. simpl. rewrite (split_dot_prefix t c Ht).
  pose proof (split_dot_nonempty c) as Hne.
  pose proof (join_split_dot c) as Hjoin.
  destruct (split_dot c) as [|piece pieces]; [done|]. by rewrite Hjoin.
Qed.

(** X1: a string reference with a dot is cut at its first dot, the
    part before it being the table and all the rest, later dots
    included, the column; a string without a dot is a column of the
    default table.  The schema is the default schema either way. *)
Theorem coalesce_string (s : string) (default_table default_schema : name) :
  (has_dot s = false ->
   coalesce_physical (RefStr s) default_table default_schema
   = Return (mkPhysicalReference default_schema default_table (Some s)))
  /\ (has_dot s = true ->
      exists t c,
        s = t ++ "." ++ c /\ has_dot t = false
        /\ coalesce_physical (RefStr s) default_table default_schema
           = Return (mkPhysicalReference default_schema (Some t) (Some c)))
  /\ (forall t c, s = t ++ "." ++ c -> has_dot t = false ->
        coalesce_physical (RefStr s) default_table default_schema
        = Return (mkPhysicalReference default_schema (Some t) (Some c))).
Proof.
  split; [apply coalesce_string_whole|]. split.
  - intros (t & c & -> & Ht)%has_dot_split. exists t, c.
    split; [done|]. split; [done|]. by apply coalesce_string_cut.
  - intros t c -> Ht. by apply coalesce_string_cut.
Qed.

Lemma coalesce_string_witness :
  coalesce_physical (RefStr "amount") (Some "sales") (Some "public")
  = Return (mkPhysicalReference (Some "public") (Some "sales") (Some "amount"))
  /\ coalesce_physical (RefStr "dim_date.month.name") (Some "sales") None
     = Return (mkPhysicalReference None (Some "dim_date") (Some "month.name")).
Proof.
  split.
  - apply (proj1 (coalesce_string "amount" (Some "sales") (Some "public"))).
    reflexivity.
  - apply (proj2 (proj2 (coalesce_string "dim_date.month.name" (Some "sales")
                           None)) "dim_date" "month.name");
      reflexivity.
Defined.

(** X2: [coalesce_physical] raises exactly on a sequence whose length
    is neither 2 nor 3 (the empty sequence included), always with the
    same exception; strings and dictionaries are always accepted.  A
    2-element sequence is a table and a column under the default
    schema, and its table is never replaced by the default table. *)
Theorem coalesce_raises (r : rawref) (default_table default_schema : name) :
  (raises (coalesce_physical r default_table default_schema) = true
   <-> exists items, r = RefSeq items /\ length items <> 2 /\ length items <> 3)
  /\ (forall e, coalesce_physical r default_table default_schema = Raise e ->
        e = Exception arity_message)
  /\ (forall t c, r = RefSeq [t; c] ->
        coalesce_physical r default_table default_schema
        = Return (mkPhysicalReference default_schema t c)).
Proof.
  split; [|split].
  - destruct r as [s|d|items]; simpl.
    + destruct (split_dot s) as [|piece [|piece' pieces]]; simpl;
        (split; [discriminate | by intros (items & ? & _)]).
    + split; [discriminate | by intros (items & ? & _)].
    + split.
      * intros Hraise. exists items. split; [done|].
        destruct items as [|x [|y [|z [|w rest]]]]; simpl in *;
          try discriminate; lia.
      * intros (items' & [= <-] & Htwo & Hthree).
        destruct items as [|x [|y [|z [|w rest]]]]; simpl in *;
          try reflexivity; lia.
  - intros e. destruct r as [s|d|items]; simpl.
    + by destruct (split_dot s) as [|piece [|piece' pieces]].
    + discriminate.
    + destruct items as [|x [|y [|z [|w rest]]]]; simpl; congruence.
  - by intros t c ->.
Qed.

Lemma coalesce_raises_witness :
  coalesce_physical (RefSeq [Some "dim_date"]) (Some "sales") None
  = Raise (Exception arity_message).
Proof.
  destruct (coalesce_physical (RefSeq [Some "dim_date"]) (Some "sales") None)
    as [ref|e] eqn:Hcall.
  - discriminate Hcall.
  - f_equal.
    exact (proj1 (proj2 (coalesce_raises (RefSeq [Some "dim_date"])
                           (Some "sales") None)) e Hcall).
Defined.

(** ** Logical references *)

Lemma split_logical_cut (dim attr : string) :
  has_dot dim = false -> split_logical (dim ++ "." ++ attr) = (Some dim, attr).
Proof.
  intros Hdim. unfold split_logical. rewrite (split_dot_prefix dim attr Hdim).
  pose proof (split_dot_nonempty attr) as Hne.
  pose proof (join_split_dot attr) as Hjoin.
  destruct (split_dot attr) as [|piece pieces]; [done|]. by rewrite Hjoin.
Qed.

Lemma split_logical_whole (reference : string) :
  has_dot reference = false -> split_logical reference = (None, reference).
Proof.
  intros Hno. unfold split_logical. by rewrite (split_dot_no_dot _ Hno).
Qed.

(** X3: [split_logical] cuts a reference at its first dot: the
    dimension part has no dot and the two parts, joined by a dot, give
    the reference back; a reference without a dot has no dimension part
    and is returned whole.  No part of the reference is lost. *)
Theorem split_logical_first_dot (reference : string) :
  (has_dot reference = false -> split_logical reference = (None, reference))
  /\ (forall attr, split_logical reference = (None, attr) ->
        attr = reference /\ has_dot reference = false)
  /\ (forall dim attr, split_logical reference = (Some dim, attr) ->
        reference = dim ++ "." ++ attr /\ has_dot dim = false)
  /\ (forall dim attr, reference = dim ++ "." ++ attr -> has_dot dim = false ->
        split_logical reference = (Some dim, attr)).
Proof.
  split; [apply split_logical_whole|]. split; [|split].
  - intros attr Hsplit. destruct (has_dot reference) eqn:Hdot.
    + apply has_dot_split in Hdot as (dim & rest & -> & Hdim).
      rewrite (split_logical_cut dim rest Hdim) in Hsplit. discriminate.
    + rewrite (split_logical_whole _ Hdot) in Hsplit. by injection Hsplit as <-.
  - intros dim attr Hsplit. destruct (has_dot reference) eqn:Hdot.
    + apply has_dot_split in Hdot as (dim' & rest & -> & Hdim).
      rewrite (split_logical_cut dim' rest Hdim) in Hsplit.
      by injection Hsplit as <- <-.
    + rewrite (split_logical_whole _ Hdot) in Hsplit. discriminate.
  - intros dim attr -> Hdim. by apply split_logical_cut.
Qed.

Lemma split_logical_first_dot_witness :
  split_logical "date.month.name" = (Some "date", "month.name")
  /\ split_logical "amount" = (None, "amount").
Proof.
  split.
  - apply (proj2 (proj2 (proj2 (split_logical_first_dot "date.month.name")))
             "date" "month.name"); reflexivity.
  - apply (proj1 (split_logical_first_dot "amount")). reflexivity.
Defined.



(** ** Dictionaries filled in a loop *)

Section fold_entries.
Context `{Countable K} {V : Type}.
Implicit Types (d : gmap K V) (entries : list (K * V)).

Lemma foldl_entries_app d entries entries' :
  foldl (fun d e => <[e.1 := e.2]> d) d (entries ++ entries')
  = foldl (fun d e => <[e.1 := e.2]> d)
      (foldl (fun d e => <[e.1 := e.2]> d) d entries) entries'.
Proof. revert d. induction entries as [|e rest IH]; intros d; simpl; auto. Qed.

(** Keys that are not written keep their value. *)
Lemma foldl_entries_keep d entries k :
  (forall e, e ∈ entries -> e.1 <> k) ->
  foldl (fun d e => <[e.1 := e.2]> d) d entries !! k = d !! k.
Proof.
  revert d. induction entries as [|e rest IH]; intros d Hfree; [done|].
  simpl. rewrite IH.
  - apply lookup_insert_ne, Hfree, elem_of_cons. by left.
  - intros e' Hin. apply Hfree, elem_of_cons. by right.
Qed.

(** The last write to a key is the one that stays. *)
Lemma foldl_entries_last d before k v after :
  (forall e, e ∈ after -> e.1 <> k) ->
  foldl (fun d e => <[e.1 := e.2]> d) d (before ++ (k, v) :: after) !! k
  = Some v.
Proof.
  intros Hfree. rewrite foldl_entries_app. simpl.
  rewrite foldl_entries_keep by done. apply lookup_insert_eq.
Qed.

(** A value found was there before or was written. *)
Lemma foldl_entries_lookup d entries k v :
  foldl (fun d e => <[e.1 := e.2]> d) d entries !! k = Some v ->
  d !! k = Some v \/ (k, v) ∈ entries.
Proof.
  revert d. induction entries as [|[k' v'] rest IH]; intros d; simpl; [auto|].
  intros [Hold | Hin]%IH.
  - destruct (decide (k' = k)) as [->|Hne].
    + rewrite lookup_insert_eq in Hold. injection Hold as ->.
      right. apply elem_of_cons. by left.
    + rewrite lookup_insert_ne in Hold by done. by left.
  - right. apply elem_of_cons. by right.
Qed.

(** A key that was written is found. *)
Lemma foldl_entries_written d entries k v :
  (k, v) ∈ entries ->
  is_Some (foldl (fun d e => <[e.1 := e.2]> d) d entries !! k).
Proof.
  revert d v. induction entries as [|[k' v'] rest IH]; intros d v.
  - by intros ?%elem_of_nil.
  - intros [[= -> ->]|Hin]%elem_of_cons; simpl; [|by apply (IH _ v)].
    destruct (decide (Exists (fun e => e.1 = k') rest)) as [Hlater|Hnot].
    + apply Exists_exists in Hlater as ([k'' v''] & Hin & Heq).
      simpl in Heq. subst k''. by apply (IH _ _ Hin).
    + rewrite foldl_entries_keep, lookup_insert_eq; [done|].
      intros e Hin Heq. apply Hnot, Exists_exists. by exists e.
Qed.
End fold_entries.

Lemma foldl_ext_fun {A B : Type} (g g' : A -> B -> A) (acc : A) (l : list B) :
  (forall acc x, g acc x = g' acc x) -> foldl g acc l = foldl g' acc l.
Proof.
  intros Hext. revert acc. induction l as [|x l IH]; intros acc; [done|].
  simpl. by rewrite Hext, IH.
Qed.

Lemma foldl_append {A B : Type} (g : A -> B -> A) (acc : A) (l k : list B) :
  foldl g acc (l ++ k) = foldl g (foldl g acc l) k.
Proof. revert acc. induction l as [|x l IH]; intros acc; simpl; auto. Qed.

Lemma foldl_bind {A B C : Type} (g : A -> C -> A) (f : B -> list C) (acc : A)
    (l : list B) :
  foldl (fun acc x => foldl g acc (f x)) acc l = foldl g acc (l ≫= f).
Proof.
  revert acc. induction l as [|x rest IH]; intros acc; [done|].
  csimpl. by rewrite foldl_append, IH.
Qed.

Lemma foldl_put_entries {A : Type} (key : A -> string) (catalog : gmap string A)
    (l : list A) :
  foldl (fun catalog a => <[key a := a]> catalog) catalog l
  = foldl (fun d e => <[e.1 := e.2]> d) catalog ((fun a => (key a, a)) <$> l).
Proof. revert catalog. induction l as [|a l IH]; intros catalog; simpl; auto. Qed.

(** ** The attribute catalog *)

(** The catalog is filled with the cube's attributes in visiting order,
    each under its logical reference. *)
Lemma collect_attributes_catalog (self : Mapper) :
  m_attributes (_collect_attributes self)
  = foldl (fun d e => <[e.1 := e.2]> d) ∅
      ((fun a => (logical self a, a)) <$> cube_attributes (m_cube self)).
Proof.
  unfold _collect_attributes, cube_attributes. simpl.
  rewrite <- foldl_put_entries, !foldl_append. f_equal.
  rewrite <- foldl_bind. apply foldl_ext_fun. intros catalog dim.
  by rewrite <- foldl_bind.
Qed.

(** X5: the catalog built by [_collect_attributes] holds exactly the
    logical references of the cube's measures, details and dimension
    attributes as keys, each key mapped to an attribute of the cube
    that has this logical reference.  The catalog that was there before
    is discarded, whatever it held, and no other field of the mapper
    changes, so collecting twice is collecting once. *)
Theorem collect_attributes_exact (self : Mapper) :
  (forall key a, m_attributes (_collect_attributes self) !! key = Some a ->
     a ∈ cube_attributes (m_cube self) /\ logical self a = key)
  /\ (forall a, a ∈ cube_attributes (m_cube self) ->
        exists a', m_attributes (_collect_attributes self) !! logical self a
                   = Some a'
                   /\ logical self a' = logical self a)
  /\ (forall catalog,
        _collect_attributes
          (mkMapper (m_cube self) (m_mappings self) (m_locale self)
             (m_fact_name self) (m_schema self)
             (m_simplify_dimension_references self)
             (m_dimension_table_prefix self) (m_joins self) catalog)
        = _collect_attributes self)
  /\ _collect_attributes (_collect_attributes self) = _collect_attributes self
  /\ m_joins (_collect_attributes self) = m_joins self
  /\ m_cube (_collect_attributes self) = m_cube self
  /\ m_mappings (_collect_attributes self) = m_mappings self
  /\ m_locale (_collect_attributes self) = m_locale self
  /\ m_fact_name (_collect_attributes self) = m_fact_name self
  /\ m_schema (_collect_attributes self) = m_schema self
  /\ m_simplify_dimension_references (_collect_attributes self)
     = m_simplify_dimension_references self
  /\ m_dimension_table_prefix (_collect_attributes self)
     = m_dimension_table_prefix self.
Proof.
  split; [|split; [|split; [|split; [|repeat split]]]]; try reflexivity.
  - intros key a. rewrite collect_attributes_catalog.
    intros [Hempty|Hin]%foldl_entries_lookup.
    + by rewrite lookup_empty in Hempty.
    + apply list_elem_of_fmap in Hin as (a' & [= -> ->] & Hin). done.
  - intros a Hin. rewrite collect_attributes_catalog.
    destruct (foldl_entries_written (∅ : gmap string Attribute)
                ((fun a => (logical self a, a)) <$> cube_attributes (m_cube self))
                (logical self a) a) as [a' Hfound].
    { apply list_elem_of_fmap. by exists a. }
    exists a'. split; [done|].
    apply foldl_entries_lookup in Hfound as [Hempty|Hin'].
    + by rewrite lookup_empty in Hempty.
    + by apply list_elem_of_fmap in Hin' as (a'' & [= -> ->] & _).
Qed.

Lemma collect_attributes_exact_witness :
  let amount := mkAttribute "amount" (Return []) None in
  let self := mkMapper (mkCube (Some "sales") None [amount] [] [] None) None
                None (Some "sales") None true None [] ∅ in
  exists a', m_attributes (_collect_attributes self) !! "amount" = Some a'
             /\ logical self a' = "amount".
Proof.
  intros amount self.
  apply (proj1 (proj2 (collect_attributes_exact self)) amount).
  apply list_elem_of_In. simpl. auto.
Defined.

(** X6: in the catalog the last attribute visited wins.  An attribute
    is found under its logical reference if no attribute visited after
    it has the same logical reference; if one has, the earlier
    attribute is replaced and can no longer be found in the catalog
    under that reference. *)
Theorem collect_attributes_last_wins (self : Mapper) (a : Attribute)
    (before after : list Attribute) :
  cube_attributes (m_cube self) = (before ++ a :: after)%list ->
  (forall later, later ∈ after -> logical self later <> logical self a) ->
  m_attributes (_collect_attributes self) !! logical self a = Some a
  /\ (forall earlier, earlier ∈ before ->
        logical self earlier = logical self a -> earlier <> a ->
        m_attributes (_collect_attributes self) !! logical self earlier
        <> Some earlier).
Proof.
  intros Hattrs Hafter.
  assert (m_attributes (_collect_attributes self) !! logical self a = Some a)
    as Hfound.
  { rewrite collect_attributes_catalog, Hattrs, fmap_app, fmap_cons.
    apply foldl_entries_last.
    intros e (later & -> & Hin)%list_elem_of_fmap. by apply Hafter. }
  split; [done|]. intros earlier _ Hsame Hne. rewrite Hsame, Hfound. congruence.
Qed.

Lemma collect_attributes_last_wins_witness :
  let size := mkDimension "size" true false in
  let first := mkAttribute "code" (Return []) (Some size) in
  let second := mkAttribute "label" (Return []) (Some size) in
  let self := mkMapper
                (mkCube (Some "sales") None [] []
                   [mkCubeDimension size [mkLevel [first; second]]] None)
                None None (Some "sales") None true None [] ∅ in
  m_attributes (_collect_attributes self) !! "size" = Some second.
Proof.
  intros size first second self.
  apply (proj1 (collect_attributes_last_wins self second [first] []
                  eq_refl ltac:(intros later []%elem_of_nil))).
Defined.

(** ** Constructing a mapper *)

Lemma coalesce_accepts (r : rawref) (default_table default_schema : name) :
  rawref_ok r = true ->
  exists ref, coalesce_physical r default_table default_schema = Return ref.
Proof.
  destruct r as [s|d|items]; simpl.
  - intros _. destruct (split_dot s) as [|piece [|piece' pieces]]; eauto.
  - eauto.
  - intros [Hlen|Hlen]%bool_decide_eq_true;
      destruct items as [|x [|y [|z [|w rest]]]]; simpl in *;
      try discriminate; eauto.
Qed.

Lemma coalesce_rejects (r : rawref) (default_table default_schema : name) :
  rawref_ok r = false ->
  coalesce_physical r default_table default_schema
  = Raise (Exception arity_message).
Proof.
  destruct r as [s|d|items]; simpl; try discriminate.
  intros Hlen%bool_decide_eq_false.
  destruct items as [|x [|y [|z [|w rest]]]]; simpl in *; try done;
    destruct Hlen; auto.
Qed.

Lemma collect_join_accepts (fact_name : name) (raw : RawJoin) :
  raw_join_ok raw = true -> exists join, collect_join fact_name raw = Return join.
Proof.
  unfold raw_join_ok, collect_join.
  destruct (raw_master raw) as [m|]; [|discriminate].
  destruct (raw_detail raw) as [d|]; [|discriminate].
  intros [Hm Hd]%andb_true_iff. simpl.
  destruct (coalesce_accepts m fact_name None Hm) as [pm ->].
  destruct (coalesce_accepts d None None Hd) as [pd ->]. simpl. eauto.
Qed.

(** What a raw join that is not accepted makes [_collect_joins]
    raise. *)
Lemma collect_join_rejects (fact_name : name) (raw : RawJoin) :
  raw_join_ok raw = false ->
  exists e,
    collect_join fact_name raw = Raise e
    /\ (raw_master raw = None -> e = KeyError "master")
    /\ (forall m, raw_master raw = Some m -> rawref_ok m = false ->
          e = Exception arity_message)
    /\ (forall m, raw_master raw = Some m -> rawref_ok m = true ->
          raw_detail raw = None -> e = KeyError "detail")
    /\ (forall m d, raw_master raw = Some m -> rawref_ok m = true ->
          raw_detail raw = Some d -> e = Exception arity_message).
Proof.
  unfold raw_join_ok, collect_join.
  destruct (raw_master raw) as [m|]; simpl.
  - destruct (rawref_ok m) eqn:Hm.
    + destruct (coalesce_accepts m fact_name None Hm) as [pm ->]. simpl.
      destruct (raw_detail raw) as [d|]; simpl.
      * intros Hd. rewrite (coalesce_rejects d None None Hd). simpl.
        eexists. split; [done|]. repeat split; congruence.
      * intros _. eexists. split; [done|]. repeat split; congruence.
    + intros _. rewrite (coalesce_rejects m fact_name None Hm). simpl.
      eexists. split; [done|]. repeat split; congruence.
  - intros _. eexists. split; [done|]. repeat split; congruence.
Qed.

Lemma collect_joins_loop_accepts (fact_name : name) (raws : list RawJoin)
    (collected : list Join) :
  Forall (fun raw => raw_join_ok raw = true) raws ->
  exists joins, collect_joins_loop fact_name raws collected = Return joins.
Proof.
  intros Hok. revert collected.
  induction Hok as [|raw rest Hraw _ IH]; intros collected; simpl; [eauto|].
  destruct (collect_join_accepts fact_name raw Hraw) as [join ->]. simpl.
  apply IH.
Qed.

(** The loop stops at the first raw join that is not accepted, with
    the exception of that join. *)
Lemma collect_joins_loop_rejects (fact_name : name)
    (good : list RawJoin) (bad : RawJoin) (rest : list RawJoin)
    (collected : list Join) (e : exn) :
  Forall (fun raw => raw_join_ok raw = true) good ->
  collect_join fact_name bad = Raise e ->
  collect_joins_loop fact_name (good ++ bad :: rest) collected = Raise e.
Proof.
  intros Hgood Hbad. revert collected.
  induction Hgood as [|raw good Hraw _ IH]; intros collected; simpl.
  - by rewrite Hbad.
  - destruct (collect_join_accepts fact_name raw Hraw) as [join ->]. simpl.
    apply IH.
Qed.

(** A list of raw joins is all accepted, or has a first one that is
    not. *)
Lemma first_rejected (raws : list RawJoin) :
  Forall (fun raw => raw_join_ok raw = true) raws
  \/ exists good bad rest,
       raws = (good ++ bad :: rest)%list
       /\ Forall (fun raw => raw_join_ok raw = true) good
       /\ raw_join_ok bad = false.
Proof.
  induction raws as [|raw raws IH]; [by left|].
  destruct (raw_join_ok raw) eqn:Hraw.
  - destruct IH as [Hall|(good & bad & rest & -> & Hgood & Hbad)].
    + left. by constructor.
    + right. exists (raw :: good), bad, rest. split; [done|].
      split; [by constructor | done].
  - right. by exists [], raw, raws.
Qed.

(** X7: when the constructor fails and with what.  Without a cube it
    raises before looking at anything else.  With a cube it returns
    exactly when every raw join has a master and a detail that
    [coalesce_physical] accepts; otherwise it raises for the first raw
    join that has not: [KeyError] for a missing [master], else the
    arity exception for a master of wrong length, else [KeyError] for a
    missing [detail], else the arity exception for the detail.  The
    attributes of the cube never make it fail. *)
Theorem Mapper_init_failure (mappings : option (gmap string rawref))
    (locale schema fact_name dimension_prefix : name)
    (joins : option (list RawJoin)) :
  Mapper_init None mappings locale schema fact_name dimension_prefix joins
  = Raise (Exception "Cube for mapper should not be None.")
  /\ (forall cube,
        raises (Mapper_init (Some cube) mappings locale schema fact_name
                  dimension_prefix joins) = false
        <-> Forall (fun raw => raw_join_ok raw = true) (default [] joins))
  /\ (forall cube good bad rest,
        default [] joins = (good ++ bad :: rest)%list ->
        Forall (fun raw => raw_join_ok raw = true) good ->
        raw_join_ok bad = false ->
        exists e,
          Mapper_init (Some cube) mappings locale schema fact_name
            dimension_prefix joins = Raise e
          /\ (raw_master bad = None -> e = KeyError "master")
          /\ (forall m, raw_master bad = Some m -> rawref_ok m = false ->
                e = Exception arity_message)
          /\ (forall m, raw_master bad = Some m -> rawref_ok m = true ->
                raw_detail bad = None -> e = KeyError "detail")
          /\ (forall m d, raw_master bad = Some m -> rawref_ok m = true ->
                raw_detail bad = Some d -> e = Exception arity_message)).
Proof.
  split; [reflexivity|].
  assert (Hbad : forall cube good bad rest,
            default [] joins = (good ++ bad :: rest)%list ->
            Forall (fun raw => raw_join_ok raw = true) good ->
            raw_join_ok bad = false ->
            exists e,
              Mapper_init (Some cube) mappings locale schema fact_name
                dimension_prefix joins = Raise e
              /\ collect_join (py_or (py_or fact_name (fact cube))
                                 (cube_name cube)) bad = Raise e).
  { intros cube good bad rest Hjoins Hgood Hrejected.
    destruct (collect_join_rejects
                (py_or (py_or fact_name (fact cube)) (cube_name cube)) bad
                Hrejected) as (e & He & _).
    exists e. split; [|done]. unfold Mapper_init, _collect_joins. simpl.
    rewrite Hjoins.
    by rewrite (collect_joins_loop_rejects _ good bad rest [] e Hgood He). }
  split.
  - intros cube. split.
    + intros Hreturns.
      destruct (first_rejected (default [] joins))
        as [Hall|(good & bad & rest & Hjoins & Hgood & Hrejected)]; [done|].
      destruct (Hbad cube good bad rest Hjoins Hgood Hrejected) as (e & He & _).
      rewrite He in Hreturns. discriminate.
    + intros Hall. unfold Mapper_init, _collect_joins. simpl.
      by destruct (collect_joins_loop_accepts
                     (py_or (py_or fact_name (fact cube)) (cube_name cube))
                     (default [] joins) [] Hall) as [collected ->].
  - intros cube good bad rest Hjoins Hgood Hrejected.
    destruct (Hbad cube good bad rest Hjoins Hgood Hrejected) as (e & He & Hjoin).
    exists e. split; [done|].
    destruct (collect_join_rejects
                (py_or (py_or fact_name (fact cube)) (cube_name cube)) bad
                Hrejected) as (e' & He' & Hclasses).
    rewrite Hjoin in He'. injection He' as <-. exact Hclasses.
Qed.

Lemma Mapper_init_failure_witness :
  Mapper_init (Some (mkCube (Some "sales") None [] [] [] None)) None None None
    None None
    (Some [mkRawJoin (Some (RefStr "sales.date_id")) None (Some "d")])
  = Raise (KeyError "detail").
Proof.
  destruct (proj2 (proj2 (Mapper_init_failure None None None None None
              (Some [mkRawJoin (Some (RefStr "sales.date_id")) None
                       (Some "d")])))
              (mkCube (Some "sales") None [] [] [] None) []
              (mkRawJoin (Some (RefStr "sales.date_id")) None (Some "d")) []
              eq_refl (Forall_nil_2 _) eq_refl)
    as (e & -> & _ & _ & Hdetail & _).
  f_equal. exact (Hdetail (RefStr "sales.date_id") eq_refl eq_refl eq_refl).
Defined.

(** What a successful construction returns. *)
Lemma Mapper_init_returns (cube : Cube) (mappings : option (gmap string rawref))
    (locale schema fact_name dimension_prefix : name)
    (joins : option (list RawJoin)) (self : Mapper) :
  Mapper_init (Some cube) mappings locale schema fact_name dimension_prefix joins
  = Return self ->
  exists collected,
    let fact_table := py_or (py_or fact_name (fact cube)) (cube_name cube) in
    let bare := mkMapper cube mappings locale fact_table schema true
                  dimension_prefix [] ∅ in
    collect_joins_loop fact_table (default [] joins) [] = Return collected
    /\ self = mkMapper cube mappings locale fact_table schema true
                dimension_prefix collected
                (m_attributes (_collect_attributes bare)).
Proof.
  unfold Mapper_init, _collect_joins. simpl.
  destruct (collect_joins_loop _ (default [] joins) []) as [collected|e];
    simpl; [|discriminate].
  intros [= <-]. by exists collected.
Qed.

(** X8: what a constructed mapper holds.  Its fact table name is the
    [fact_name] argument if that is a non-empty string, else the cube's
    [fact] if that is a non-empty string, else the cube's name.
    Dimension references are always simplified: the logical reference
    of an attribute of a flat dimension without details is the
    dimension name alone, and of any other dimension attribute the
    dimension name, a dot and the attribute name.  It has one join per
    raw join, and its catalog has exactly the logical references of the
    cube's attributes as keys. *)
Theorem Mapper_init_holds (cube : Cube) (mappings : option (gmap string rawref))
    (locale schema fact_name dimension_prefix : name)
    (joins : option (list RawJoin)) (self : Mapper) :
  Mapper_init (Some cube) mappings locale schema fact_name dimension_prefix joins
  = Return self ->
  m_cube self = cube /\ m_schema self = schema
  /\ m_dimension_table_prefix self = dimension_prefix
  /\ (truthy fact_name = true -> m_fact_name self = fact_name)
  /\ (truthy fact_name = false -> truthy (fact cube) = true ->
      m_fact_name self = fact cube)
  /\ (truthy fact_name = false -> truthy (fact cube) = false ->
      m_fact_name self = cube_name cube)
  /\ (forall a d, dimension a = Some d ->
        logical self a
        = if is_flat d && negb (has_details d) then dimension_name d
          else dimension_name d ++ "." ++ attribute_name a)
  /\ length (m_joins self) = length (default [] joins)
  /\ (forall key a, m_attributes self !! key = Some a ->
        a ∈ cube_attributes cube /\ logical self a = key)
  /\ (forall a, a ∈ cube_attributes cube ->
        is_Some (m_attributes self !! logical self a)).
Proof.
  intros (collected & Hloop & ->)%Mapper_init_returns.
  split; [done|]. split; [done|]. split; [done|].
  split; [|split; [|split; [|split; [|split; [|split]]]]].
  - intros Hname. cbn [m_fact_name]. unfold py_or. by rewrite !Hname.
  - intros Hname Hfact. cbn [m_fact_name]. unfold py_or.
    by rewrite Hname, Hfact.
  - intros Hname Hfact. cbn [m_fact_name]. unfold py_or.
    by rewrite Hname, Hfact.
  - intros a d Hd. unfold logical, simplified, str_attribute. by rewrite Hd.
  - apply collect_joins_loop_returns in Hloop as (new & -> & Hnew).
    symmetry. exact (Forall2_length _ _ _ Hnew).
  - intros key a. cbn [m_attributes]. rewrite collect_attributes_catalog.
    intros [Hempty|Hin]%foldl_entries_lookup.
    + by rewrite lookup_empty in Hempty.
    + by apply list_elem_of_fmap in Hin as (a' & [= -> ->] & Hin).
  - intros a Hin. cbn [m_attributes]. rewrite collect_attributes_catalog.
    eapply foldl_entries_written, list_elem_of_fmap. by exists a.
Qed.

Lemma Mapper_init_holds_witness :
  let cube := mkCube (Some "sales") (Some "ft_sales") [] [] [] None in
  let self := mkMapper cube None None (Some "ft_sales") (Some "public") true
                None [] ∅ in
  m_fact_name self = Some "ft_sales".
Proof.
  intros cube self.
  apply (proj1 (proj2 (proj2 (proj2 (proj2
           (Mapper_init_holds cube None None (Some "public") (Some "") None
              None self eq_refl)))))); reflexivity.
Defined.

(** ** When [physical] raises *)

(** [physical] by the entry that the override table holds under the
    lookup key. *)
Lemma physical_by_entry (self : Mapper) (attribute : Attribute)
    (locale : name) :
  physical self attribute locale
  = match cube_mappings (m_cube self)
          ≫= fun mappings =>
               mappings !! with_locale (logical self attribute) "."
                             (resolve_locale attribute locale) with
    | Some raw =>
        if rawref_truthy raw
        then coalesce_physical raw (m_fact_name self) (m_schema self)
        else Return (default_reference self attribute
                       (resolve_locale attribute locale))
    | None => Return (default_reference self attribute
                        (resolve_locale attribute locale))
    end.
Proof.
  unfold physical, mapped_reference.
  destruct (cube_mappings (m_cube self)) as [mappings|]; simpl; [|done].
  case_bool_decide as Hfull; simpl.
  - destruct (mappings !! _) as [raw|]; simpl; [|done].
    destruct (rawref_truthy raw); simpl; [|done].
    by destruct (coalesce_physical raw _ _).
  - subst mappings. by rewrite lookup_empty.
Qed.

(** X9: [physical] raises only through an override entry: exactly when
    the cube's override table holds, under the lookup key, a sequence
    of 1 element or of more than 3.  An empty sequence under that key
    does not raise: it is passed over for the default reference, like a
    missing entry.  When it raises it is with the arity exception of
    [coalesce_physical]. *)
Theorem physical_raises (self : Mapper) (attribute : Attribute)
    (locale : name) :
  let key := with_locale (logical self attribute) "."
               (resolve_locale attribute locale) in
  (raises (physical self attribute locale) = true
   <-> exists mappings items,
         cube_mappings (m_cube self) = Some mappings
         /\ mappings !! key = Some (RefSeq items)
         /\ (length items = 1 \/ 3 < length items))
  /\ (forall e, physical self attribute locale = Raise e ->
        e = Exception arity_message)
  /\ (forall mappings,
        cube_mappings (m_cube self) = Some mappings ->
        mappings !! key = Some (RefSeq []) ->
        physical self attribute locale
        = Return (default_reference self attribute
                    (resolve_locale attribute locale))).
Proof.
  intros key. rewrite physical_by_entry. fold key.
  split; [|split].
  - split.
    + destruct (cube_mappings (m_cube self)) as [mappings|]; simpl;
        [|discriminate].
      destruct (mappings !! key) as [raw|] eqn:Hfound; [|discriminate].
      destruct (rawref_truthy raw) eqn:Htruthy; [|discriminate].
      destruct (rawref_ok raw) eqn:Hok.
      { by destruct (coalesce_accepts raw (m_fact_name self) (m_schema self)
                       Hok) as [ref ->]. }
      intros _. destruct raw as [s|d|items]; try discriminate Hok.
      exists mappings, items. split; [done|]. split; [done|].
      simpl in Hok, Htruthy. apply bool_decide_eq_false in Hok.
      apply bool_decide_eq_true in Htruthy.
      destruct items as [|x [|y [|z [|w rest]]]]; simpl in *; try done; lia.
    + intros (mappings & items & -> & Hfound & Hlen). simpl. rewrite Hfound.
      destruct items as [|x [|y [|z [|w rest]]]]; simpl in *; try lia; done.
  - intros e. destruct (cube_mappings (m_cube self) ≫= _) as [raw|];
      [|discriminate].
    destruct (rawref_truthy raw); [|discriminate].
    destruct (rawref_ok raw) eqn:Hok.
    + by destruct (coalesce_accepts raw (m_fact_name self) (m_schema self) Hok)
        as [ref ->].
    + rewrite (coalesce_rejects raw _ _ Hok). by intros [= <-].
  - intros mappings -> Hfound. simpl. by rewrite Hfound.
Qed.

Lemma physical_raises_witness :
  let cube := mkCube (Some "sales") None [] [] []
                (Some {["amount" := RefSeq [Some "amount"]]}) in
  let self := mkMapper cube None None (Some "sales") None true None [] ∅ in
  raises (physical self (mkAttribute "amount" (Return []) None) None) = true.
Proof.
  intros cube self.
  apply (proj1 (physical_raises self (mkAttribute "amount" (Return []) None)
                  None)).
  exists {["amount" := RefSeq [Some "amount"]]}, [Some "amount"].
  split; [reflexivity|]. split; [apply lookup_singleton_eq|].
  left. reflexivity.
Defined.

(** ** Entries of the table map *)

(** A key whose every write is of the value it already has keeps that
    value. *)
Lemma foldl_entries_stable `{Countable K} {V : Type} (d : gmap K V)
    (entries : list (K * V)) (k : K) (v : V) :
  d !! k = Some v ->
  (forall e, e ∈ entries -> e.1 = k -> e.2 = v) ->
  foldl (fun d e => <[e.1 := e.2]> d) d entries !! k = Some v.
Proof.
  revert d. induction entries as [|[k' v'] rest IH]; intros d Hd Hsame; [done|].
  simpl. apply IH.
  - destruct (decide (k' = k)) as [->|Hne].
    + rewrite lookup_insert_eq. f_equal.
      apply (Hsame (k, v')); [|done]. apply elem_of_cons. by left.
    + by rewrite lookup_insert_ne.
  - intros e Hin. apply Hsame, elem_of_cons. by right.
Qed.

Lemma table_map_loop_valid (fact_name : name) (joins : list Join)
    (tables tables' : gmap tablekey tablekey) :
  table_map_loop fact_name joins tables = Return tables' ->
  Forall (fun join => invalid_detail fact_name join = false) joins.
Proof.
  intros Hreturns. apply Forall_forall. intros join Hin.
  destruct (invalid_detail fact_name join) eqn:Hinvalid; [|done].
  assert (raises (table_map_loop fact_name joins tables) = true) as Hraises.
  { apply table_map_loop_raises, Exists_exists. by exists join. }
  rewrite Hreturns in Hraises. discriminate.
Qed.

Lemma join_entries_key (join : Join) (e : tablekey * tablekey) :
  e ∈ join_entries join ->
  e = (master_key join, master_key join)
  \/ e = (detail_key join, (schema (detail join), table (detail join))).
Proof.
  unfold join_entries. rewrite !elem_of_cons.
  intros [->|[->|[]%elem_of_nil]]; auto.
Qed.

(** X10: the fact table in the table map.  The returned map sends the
    fact table [(schema, fact_name)] to itself as long as no join has
    it as detail key.  When the last join is aliased to the fact table
    name, in the mapper's schema, the map instead sends the fact table
    to that join's detail table, which is a different table. *)
Theorem table_map_fact_entry (self : Mapper)
    (tables : gmap tablekey tablekey) :
  table_map self = Return tables ->
  let fact_key := (m_schema self, m_fact_name self) in
  ((forall join, join ∈ m_joins self -> detail_key join <> fact_key) ->
   tables !! fact_key = Some fact_key)
  /\ (forall earlier join,
        m_joins self = (earlier ++ [join])%list ->
        detail_key join = fact_key ->
        tables !! fact_key = Some (schema (detail join), table (detail join))
        /\ (schema (detail join), table (detail join)) <> fact_key).
Proof.
  intros Hreturns fact_key. unfold table_map in Hreturns.
  pose proof (table_map_loop_valid _ _ _ _ Hreturns) as Hvalid.
  apply table_map_loop_returns in Hreturns as ->. split.
  - intros Hfree. apply foldl_entries_stable; [apply lookup_singleton_eq|].
    intros e (join & Hentry & Hjoin)%list_elem_of_bind Hkey.
    apply join_entries_key in Hentry as [->| ->]; simpl in *; [done|].
    by destruct (Hfree join Hjoin).
  - intros earlier join Hjoins Hkey. split.
    + rewrite Hjoins, bind_app.
      replace ([join] ≫= join_entries)
        with ([(master_key join, master_key join)]
              ++ (fact_key, (schema (detail join), table (detail join))) :: [])%list
        by (cbn; by rewrite Hkey).
      rewrite app_assoc. apply foldl_entries_last. by intros e ?%elem_of_nil.
    + intros [= _ Htable]. rewrite Forall_forall in Hvalid.
      assert (invalid_detail (m_fact_name self) join = false) as Hjoin.
      { apply Hvalid. rewrite Hjoins. apply elem_of_app. right.
        apply elem_of_cons. by left. }
      apply orb_false_iff in Hjoin as [_ Hfact].
      apply bool_decide_eq_false in Hfact. done.
Qed.

Lemma table_map_fact_entry_witness :
  let shadow := mkJoin (mkPhysicalReference None (Some "sales") (Some "date_id"))
                  (mkPhysicalReference None (Some "dim_date") (Some "id"))
                  (Some "sales") in
  let self := mkMapper (mkCube (Some "sales") None [] [] [] None) None None
                (Some "sales") None true None [shadow] ∅ in
  exists tables,
    table_map self = Return tables
    /\ tables !! (None, Some "sales") = Some (None, Some "dim_date").
Proof.
  intros shadow self.
  destruct (table_map self) as [tables|e] eqn:Hcall; [|discriminate Hcall].
  exists tables. split; [reflexivity|].
  exact (proj1 (proj2 (table_map_fact_entry self tables Hcall) [] shadow
                  eq_refl eq_refl)).
Defined.

(** X11: aliases in the table map.  In a returned map a join's detail
    key (its schema with the alias, or with the detail table when there
    is no alias) is sent to the join's real detail table, provided no
    later join writes the same key as its master or detail; and a
    join's master key is sent to itself, provided neither the join
    itself nor a later join has it as detail key.  Among joins that
    share a detail key the last one decides. *)
Theorem table_map_alias_entry (self : Mapper) (tables : gmap tablekey tablekey)
    (before after : list Join) (join : Join) :
  table_map self = Return tables ->
  m_joins self = (before ++ join :: after)%list ->
  ((forall later, later ∈ after ->
      master_key later <> detail_key join /\ detail_key later <> detail_key join) ->
   tables !! detail_key join = Some (schema (detail join), table (detail join)))
  /\ ((forall later, later ∈ join :: after ->
         detail_key later <> master_key join) ->
      tables !! master_key join = Some (master_key join)).
Proof.
  intros Hreturns Hjoins. unfold table_map in Hreturns.
  apply table_map_loop_returns in Hreturns as ->.
  rewrite Hjoins, bind_app, bind_cons. split.
  - intros Hafter.
    replace ((before ≫= join_entries) ++ join_entries join
             ++ (after ≫= join_entries))%list
      with (((before ≫= join_entries) ++ [(master_key join, master_key join)])
            ++ (detail_key join, (schema (detail join), table (detail join)))
               :: (after ≫= join_entries))%list
      by (unfold join_entries; by rewrite <- app_assoc).
    apply foldl_entries_last.
    intros e (later & Hentry & Hlater)%list_elem_of_bind.
    destruct (Hafter later Hlater) as [Hmaster Hdetail].
    by apply join_entries_key in Hentry as [->| ->].
  - intros Hfree. rewrite foldl_entries_app. simpl.
    apply foldl_entries_stable.
    + rewrite lookup_insert_ne, lookup_insert_eq; [done|].
      apply Hfree, elem_of_cons. by left.
    + intros e (later & Hentry & Hlater)%list_elem_of_bind Hkey.
      apply join_entries_key in Hentry as [->| ->]; simpl in *; [done|].
      destruct (Hfree later); [|done]. apply elem_of_cons. by right.
Qed.

Lemma table_map_alias_entry_witness :
  let join := mkJoin (mkPhysicalReference None (Some "sales") (Some "date_id"))
                (mkPhysicalReference None (Some "dim_date") (Some "id"))
                (Some "d") in
  let self := mkMapper (mkCube (Some "sales") None [] [] [] None) None None
                (Some "sales") None true None [join] ∅ in
  exists tables,
    table_map self = Return tables
    /\ tables !! (None, Some "d") = Some (None, Some "dim_date").
Proof.
  intros join self.
  destruct (table_map self) as [tables|e] eqn:Hcall; [|discriminate Hcall].
  exists tables. split; [reflexivity|].
  apply (proj1 (table_map_alias_entry self tables [] [] join Hcall eq_refl)).
  intros later []%elem_of_nil.
Defined.

(** ** Raw joins that the table map rejects *)

Lemma table_map_rejects (self : Mapper) (join : Join) :
  join ∈ m_joins self -> invalid_detail (m_fact_name self) join = true ->
  table_map self = Raise (ValueError detail_message).
Proof.
  intros Hin Hinvalid.
  assert (raises (table_map self) = true) as Hraises.
  { apply table_map_loop_raises, Exists_exists. by exists join. }
  destruct (table_map self) as [tables|e] eqn:Hcall; [discriminate|].
  f_equal. by apply (table_map_loop_error _ _ _ _ Hcall).
Qed.

(** The joins of a constructed mapper, one for one with the raw
    joins. *)
Lemma Mapper_init_joins (cube : Cube) (mappings : option (gmap string rawref))
    (locale schema fact_name dimension_prefix : name)
    (raws : list RawJoin) (self : Mapper) :
  Mapper_init (Some cube) mappings locale schema fact_name dimension_prefix
    (Some raws) = Return self ->
  Forall2 (fun raw join => collect_join (m_fact_name self) raw = Return join)
    raws (m_joins self).
Proof.
  intros (collected & Hloop & ->)%Mapper_init_returns. simpl in *.
  by apply collect_joins_loop_returns in Hloop as (new & -> & Hnew).
Qed.

(** X12: raw joins that construct a mapper whose [table_map] fails.
    The constructor accepts a detail given as a string without a dot,
    or as a string whose table part is the fact table name, but
    [table_map] of the mapper then always raises: the first has no
    detail table (the detail is coalesced without a default table), the
    second names the fact table.  When every detail is a 2-element list
    or a dotted string whose table is a non-empty name other than the
    fact table name, [table_map] returns. *)
Theorem table_map_of_raw_joins (cube : Cube)
    (mappings : option (gmap string rawref))
    (locale schema fact_name dimension_prefix : name)
    (raws : list RawJoin) (self : Mapper) :
  Mapper_init (Some cube) mappings locale schema fact_name dimension_prefix
    (Some raws) = Return self ->
  (forall raw s, raw ∈ raws -> raw_detail raw = Some (RefStr s) ->
     has_dot s = false ->
     table_map self = Raise (ValueError detail_message))
  /\ (forall raw t c, raw ∈ raws ->
        raw_detail raw = Some (RefStr (t ++ "." ++ c)) -> has_dot t = false ->
        m_fact_name self = Some t ->
        table_map self = Raise (ValueError detail_message))
  /\ ((forall raw, raw ∈ raws ->
         exists t,
           t <> "" /\ m_fact_name self <> Some t
           /\ ((exists c, raw_detail raw = Some (RefSeq [Some t; c]))
               \/ (exists c, raw_detail raw = Some (RefStr (t ++ "." ++ c))
                             /\ has_dot t = false))) ->
      raises (table_map self) = false).
Proof.
  intros Hinit. pose proof (Mapper_init_joins _ _ _ _ _ _ _ _ Hinit) as Hjoins.
  split; [|split].
  - intros raw s (i & Hraw)%list_elem_of_lookup_1 Hdetail Hdot.
    destruct (Forall2_lookup_l _ _ _ _ _ Hjoins Hraw) as (join & Hjoin & Hcollect).
    apply collect_join_returns in Hcollect as (m & d & _ & Hd & _ & Hcoalesce & _).
    rewrite Hdetail in Hd. injection Hd as <-.
    rewrite (coalesce_string_whole s None None Hdot) in Hcoalesce.
    injection Hcoalesce as Hcoalesce.
    apply (table_map_rejects self join); [by eapply list_elem_of_lookup_2|].
    unfold invalid_detail. by rewrite <- Hcoalesce.
  - intros raw t c (i & Hraw)%list_elem_of_lookup_1 Hdetail Hdot Hfact.
    destruct (Forall2_lookup_l _ _ _ _ _ Hjoins Hraw) as (join & Hjoin & Hcollect).
    apply collect_join_returns in Hcollect as (m & d & _ & Hd & _ & Hcoalesce & _).
    rewrite Hdetail in Hd. injection Hd as <-.
    rewrite (coalesce_string_cut t c None None Hdot) in Hcoalesce.
    injection Hcoalesce as Hcoalesce.
    apply (table_map_rejects self join); [by eapply list_elem_of_lookup_2|].
    unfold invalid_detail. rewrite <- Hcoalesce. simpl.
    rewrite bool_decide_true by done. apply orb_true_r.
  - intros Hgood.
    destruct (raises (table_map self)) eqn:Hraises; [|done].
    apply table_map_loop_raises, Exists_exists in Hraises
      as (join & (i & Hjoin)%list_elem_of_lookup_1 & Hinvalid).
    destruct (Forall2_lookup_r _ _ _ _ _ Hjoins Hjoin) as (raw & Hraw & Hcollect).
    apply collect_join_returns in Hcollect as (m & d & _ & Hd & _ & Hcoalesce & _).
    destruct (Hgood raw) as (t & Hne & Hfact & Hshape);
      [by eapply list_elem_of_lookup_2|].
    assert (table (detail join) = Some t) as Htable.
    { destruct Hshape as [[c Hshape]|(c & Hshape & Hdot)];
        rewrite Hshape in Hd; injection Hd as <-.
      - simpl in Hcoalesce. by injection Hcoalesce as <-.
      - rewrite (coalesce_string_cut t c None None Hdot) in Hcoalesce.
        by injection Hcoalesce as <-. }
    apply invalid_detail_spec in Hinvalid. rewrite Htable in Hinvalid.
    destruct Hinvalid as [?|[[= ->]|?]]; congruence.
Qed.

Lemma table_map_of_raw_joins_witness :
  let raw := mkRawJoin (Some (RefStr "sales.date_id")) (Some (RefStr "id"))
               (Some "d") in
  let self := mkMapper (mkCube (Some "sales") None [] [] [] None) None None
                (Some "sales") None true None
                [mkJoin (mkPhysicalReference None (Some "sales") (Some "date_id"))
                   (mkPhysicalReference None None (Some "id")) (Some "d")] ∅ in
  Mapper_init (Some (mkCube (Some "sales") None [] [] [] None)) None None None
    None None (Some [raw]) = Return self
  /\ table_map self = Raise (ValueError detail_message).
Proof.
  intros raw self. split; [reflexivity|].
  apply (proj1 (table_map_of_raw_joins
                  (mkCube (Some "sales") None [] [] [] None) None None None
                  None None [raw] self eq_refl) raw "id");
    [|reflexivity|reflexivity].
  apply list_elem_of_In. simpl. auto.
Defined.

(** ** Relevant joins: what is returned *)

(** What holds at the start and is kept by every turn holds after any
    run. *)
Lemma search_run_invariant (self : Mapper) (P : JoinSearch -> Prop)
    (st st' : JoinSearch) :
  (forall st table, P st -> table ∈ tables_to_join st ->
     P (join_table self table st)) ->
  P st -> rtc (search_step self) st st' -> P st'.
Proof.
  intros Hkeep Hstart Hrun. induction Hrun as [st|st st1 st' Hstep _ IH];
    [done|].
  apply IH. destruct Hstep as [table st Hwork]. by apply Hkeep.
Qed.

Lemma set_pop_in (pick : nat) (s : gset tablekey) (table : tablekey) :
  set_pop pick s = Some table -> table ∈ s.
Proof.
  unfold set_pop. intros Hlookup. apply elem_of_elements.
  by eapply list_elem_of_lookup_2.
Qed.

(** The bounded loop follows a run of the step relation to the end. *)
Lemma search_loop_sound (self : Mapper) (picks : nat -> nat) (fuel i : nat)
    (st st' : JoinSearch) :
  search_loop self picks fuel i st = Some st' ->
  rtc (search_step self) st st' /\ tables_to_join st' = ∅.
Proof.
  revert i st. induction fuel as [|fuel IH]; intros i st; simpl.
  - case_bool_decide; [|discriminate]. by intros [= <-].
  - case_bool_decide; [by intros [= <-]|].
    destruct (set_pop (picks i) (tables_to_join st)) as [table|] eqn:Hpop;
      [|discriminate].
    intros [Hrun Hend]%IH. split; [|done].
    eapply rtc_l; [|exact Hrun]. constructor. by eapply set_pop_in.
Qed.

Lemma relevant_joins_sound (self : Mapper) (picks : nat -> nat) (fuel : nat)
    (attributes : list PhysicalReference) (result : list Join) :
  relevant_joins self picks fuel attributes = Some result ->
  relevant_joins_returns self attributes result.
Proof.
  unfold relevant_joins.
  destruct (search_loop self picks fuel 0 (search_start attributes))
    as [st|] eqn:Hloop; [|discriminate].
  intros [= <-]. apply search_loop_sound in Hloop as [Hrun Hend].
  by exists st.
Qed.

Lemma visit_invariant_start (self : Mapper)
    (attributes : list PhysicalReference) :
  visit_invariant self attributes (search_start attributes).
Proof.
  unfold visit_invariant, search_start. simpl.
  split; [|split; [|split; [|split]]].
  - intros table (ref & -> & Hin)%elem_of_list_to_set%list_elem_of_fmap.
    by constructor.
  - by intros table ?%elem_of_empty.
  - by intros join ?%elem_of_nil.
  - intros ref Hin. left. apply elem_of_list_to_set, list_elem_of_fmap.
    by exists ref.
  - by intros table join ?%elem_of_empty.
Qed.

Lemma visit_invariant_step (self : Mapper)
    (attributes : list PhysicalReference) (st : JoinSearch) (table : tablekey) :
  visit_invariant self attributes st -> table ∈ tables_to_join st ->
  visit_invariant self attributes (join_table self table st).
Proof.
  intros (Hwork & Hjoined & Hresult & Hrefs & Hmasters) Hpop.
  rewrite join_table_unfold. unfold visit_invariant.
  destruct (first_match table (m_joins self)) as [taken|] eqn:Htaken; simpl.
  - assert (forall other,
              other ∈ tables_to_join st ->
              other ∈ (if bool_decide (master_key taken ∈ joined_tables st)
                       then tables_to_join st ∖ {[ table ]}
                       else tables_to_join st ∖ {[ table ]}
                            ∪ {[ master_key taken ]})
              \/ other ∈ joined_tables st ∪ {[ table ]}) as Hstays.
    { intros other Hother. destruct (decide (other = table)) as [->|Hne].
      - right. set_solver.
      - left. case_bool_decide; set_solver. }
    split; [|split; [|split; [|split]]].
    + intros other Hother.
      assert (other ∈ tables_to_join st \/ other = master_key taken)
        as [?| ->] by (case_bool_decide; set_solver).
      * by apply Hwork.
      * eapply needed_master; [|exact Htaken]. by apply Hwork.
    + intros other [Hother| ->%elem_of_singleton]%elem_of_union.
      * destruct (Hjoined other Hother) as (Hneeded & join & Hmatch & Hin).
        split; [done|]. exists join. split; [done|].
        apply elem_of_app. by left.
      * split; [by apply Hwork|]. exists taken. split; [done|].
        apply elem_of_app. right. apply elem_of_cons. by left.
    + intros join [Hin|Hin%list_elem_of_singleton]%elem_of_app.
      * destruct (Hresult join Hin) as (other & Hother & Hmatch).
        exists other. split; [|done]. apply elem_of_union. by left.
      * subst join. exists table. split; [|done]. set_solver.
    + intros ref Hin. destruct (Hrefs ref Hin) as [Hw|[Hj|Hnone]].
      * destruct (Hstays _ Hw); auto.
      * right. left. apply elem_of_union. by left.
      * by right; right.
    + intros other join [Hother| ->%elem_of_singleton]%elem_of_union Hmatch.
      * destruct (Hmasters other join Hother Hmatch) as [Hw|[Hj|Hnone]].
        -- destruct (Hstays _ Hw); auto.
        -- right. left. apply elem_of_union. by left.
        -- by right; right.
      * assert (join = taken) as -> by congruence.
        case_bool_decide as Hmaster.
        -- right. left. apply elem_of_union. by left.
        -- left. apply elem_of_union. right. by apply elem_of_singleton.
  - assert (forall other,
              other ∈ tables_to_join st ->
              other ∈ tables_to_join st ∖ {[ table ]}
              \/ first_match other (m_joins self) = None) as Hstays.
    { intros other Hother. destruct (decide (other = table)) as [->|Hne].
      - by right.
      - left. set_solver. }
    split; [|split; [|split; [|split]]]; [|done|done|..].
    + intros other [Hother _]%elem_of_difference. by apply Hwork.
    + intros ref Hin. destruct (Hrefs ref Hin) as [Hw|[Hj|Hnone]]; auto.
      destruct (Hstays _ Hw); auto.
    + intros other join Hother Hmatch.
      destruct (Hmasters other join Hother Hmatch) as [Hw|[Hj|Hnone]]; auto.
      destruct (Hstays _ Hw); auto.
Qed.

(** At the end of a run the result holds exactly the first matching
    joins of the needed tables. *)
Lemma relevant_joins_returns_members (self : Mapper)
    (attributes : list PhysicalReference) (result : list Join) :
  relevant_joins_returns self attributes result ->
  forall join,
    join ∈ result
    <-> exists table, needed self attributes table
                      /\ first_match table (m_joins self) = Some join.
Proof.
  intros (st & Hrun & Hend & <-) join.
  assert (visit_invariant self attributes st)
    as (Hwork & Hjoined & Hresult & Hrefs & Hmasters).
  { eapply search_run_invariant; [|apply visit_invariant_start|exact Hrun].
    intros st0 table. apply visit_invariant_step. }
  assert (forall table, needed self attributes table ->
            table ∈ joined_tables st
            \/ first_match table (m_joins self) = None) as Hvisited.
  { intros table Hneeded.
    induction Hneeded as [ref Hin|table taken Hneeded IH Hmatch].
    - destruct (Hrefs ref Hin) as [Hw|[Hj|Hnone]]; auto.
      rewrite Hend in Hw. by apply elem_of_empty in Hw.
    - destruct IH as [Hj|Hnone]; [|congruence].
      destruct (Hmasters table taken Hj Hmatch) as [Hw|[Hj'|Hnone]]; auto.
      rewrite Hend in Hw. by apply elem_of_empty in Hw. }
  split.
  - intros (table & Hin & Hmatch)%Hresult. exists table. split; [|done].
    by apply Hjoined.
  - intros (table & Hneeded & Hmatch).
    destruct (Hvisited table Hneeded) as [Hj|Hnone]; [|congruence].
    destruct (Hjoined table Hj) as (_ & join' & Hmatch' & Hin). congruence.
Qed.

(** X14: what [relevant_joins] returns does not depend on the order in
    which the work set is popped, up to order and repetition.  A join
    is in the result exactly when it is the first join, in collection
    order, whose detail key is a needed table, the needed tables being
    the tables of the references and, from each needed table, the
    master of that first join.  So the result has only collected joins,
    it has the join of every reference whose table is a detail key, and
    with each join the join that brings in its master. *)
Theorem relevant_joins_members (self : Mapper)
    (attributes : list PhysicalReference) :
  (forall picks fuel result,
     relevant_joins self picks fuel attributes = Some result ->
     forall join,
       join ∈ result
       <-> exists table, needed self attributes table
                         /\ first_match table (m_joins self) = Some join)
  /\ (forall picks picks' fuel fuel' result result',
        relevant_joins self picks fuel attributes = Some result ->
        relevant_joins self picks' fuel' attributes = Some result' ->
        forall join, join ∈ result <-> join ∈ result')
  /\ (forall picks fuel result join,
        relevant_joins self picks fuel attributes = Some result ->
        join ∈ result ->
        join ∈ m_joins self
        /\ (forall other,
              first_match (master_key join) (m_joins self) = Some other ->
              other ∈ result))
  /\ (forall picks fuel result ref join,
        relevant_joins self picks fuel attributes = Some result ->
        ref ∈ attributes ->
        first_match (schema ref, table ref) (m_joins self) = Some join ->
        join ∈ result).
Proof.
  split; [|split; [|split]].
  - intros picks fuel result Hresult.
    by apply relevant_joins_returns_members, (relevant_joins_sound _ picks fuel).
  - intros picks picks' fuel fuel' result result' Hresult Hresult' join.
    apply relevant_joins_sound in Hresult, Hresult'.
    rewrite (relevant_joins_returns_members _ _ _ Hresult join).
    by rewrite (relevant_joins_returns_members _ _ _ Hresult' join).
  - intros picks fuel result join Hresult%relevant_joins_sound Hin.
    apply (relevant_joins_returns_members _ _ _ Hresult) in Hin
      as (table & Hneeded & Hmatch).
    split; [by apply first_match_detail in Hmatch as [? _]|].
    intros other Hother.
    apply (relevant_joins_returns_members _ _ _ Hresult).
    exists (master_key join). split; [|done]. by eapply needed_master.
  - intros picks fuel result ref join Hresult%relevant_joins_sound Hin Hmatch.
    apply (relevant_joins_returns_members _ _ _ Hresult).
    exists (schema ref, table ref). split; [by constructor | done].
Qed.

Lemma relevant_joins_members_witness :
  let month := mkJoin (mkPhysicalReference None (Some "dim_date") (Some "year_id"))
                 (mkPhysicalReference None (Some "dim_year") (Some "id")) None in
  let date := mkJoin (mkPhysicalReference None (Some "sales") (Some "date_id"))
                (mkPhysicalReference None (Some "dim_date") (Some "id")) None in
  let self := mkMapper (mkCube (Some "sales") None [] [] [] None) None None
                (Some "sales") None true None [month; date] ∅ in
  let attributes := [mkPhysicalReference None (Some "dim_year") (Some "name")] in
  exists result,
    relevant_joins self (fun _ => 0) 5 attributes = Some result
    /\ month ∈ result /\ date ∈ result.
Proof.
  intros month date self attributes.
  destruct (relevant_joins_total self (fun _ => 0) 0 attributes)
    as (result & Hresult & _).
  exists result. split; [exact Hresult|].
  pose proof (proj2 (proj2 (proj2 (relevant_joins_members self attributes)))
                (fun _ => 0) 5 result
                (mkPhysicalReference None (Some "dim_year") (Some "name")) month
                Hresult) as Hmonth.
  assert (month ∈ result) as Hin.
  { apply Hmonth; [|reflexivity]. apply list_elem_of_In. simpl. auto. }
  split; [exact Hin|].
  apply (proj2 (proj1 (proj2 (proj2 (relevant_joins_members self attributes)))
                  (fun _ => 0) 5 result month Hresult Hin) date).
  reflexivity.
Defined.

(** X13: [relevant_joins] returns the empty list exactly when no
    reference has a table that is the detail key of a join: for no
    references at all, for references to the fact table only, and for
    tables that no join brings in. *)
Theorem relevant_joins_empty (self : Mapper)
    (attributes : list PhysicalReference) :
  (forall picks fuel result,
     relevant_joins self picks fuel attributes = Some result ->
     (result = []
      <-> forall ref, ref ∈ attributes ->
            first_match (schema ref, table ref) (m_joins self) = None))
  /\ (forall picks fuel,
        attributes = [] ->
        relevant_joins self picks fuel attributes = Some []).
Proof.
  split.
  - intros picks fuel result Hresult%relevant_joins_sound.
    pose proof (relevant_joins_returns_members _ _ _ Hresult) as Hmembers.
    split.
    + intros -> ref Hin.
      destruct (first_match (schema ref, table ref) (m_joins self))
        as [join|] eqn:Hmatch; [|done].
      assert (join ∈ ([] : list Join)) as []%elem_of_nil.
      apply Hmembers. exists (schema ref, table ref).
      split; [by constructor | done].
    + intros Hnone. destruct result as [|join rest]; [done|].
      assert (join ∈ join :: rest) as Hin by (apply elem_of_cons; by left).
      apply Hmembers in Hin as (table & Hneeded & Hmatch).
      assert (first_match table (m_joins self) = None); [|congruence].
      clear Hmatch. induction Hneeded as [ref Hin|table' taken _ IH Hmatch].
      * by apply Hnone.
      * congruence.
  - intros picks fuel ->. by destruct fuel.
Qed.

Lemma relevant_joins_empty_witness :
  let date := mkJoin (mkPhysicalReference None (Some "sales") (Some "date_id"))
                (mkPhysicalReference None (Some "dim_date") (Some "id")) None in
  let self := mkMapper (mkCube (Some "sales") None [] [] [] None) None None
                (Some "sales") None true None [date] ∅ in
  let attributes := [mkPhysicalReference None (Some "sales") (Some "amount")] in
  exists result,
    relevant_joins self (fun _ => 0) 3 attributes = Some result /\ result = [].
Proof.
  intros date self attributes.
  destruct (relevant_joins_total self (fun _ => 0) 0 attributes)
    as (result & Hresult & _).
  exists result. split; [exact Hresult|].
  apply (proj1 (relevant_joins_empty self attributes) (fun _ => 0) 3 result
           Hresult).
  intros ref [->|[]%elem_of_nil]%elem_of_cons. reflexivity.
Defined.

(** ** Relevant joins: repetitions *)

Lemma single_invariant_step (self : Mapper) (st : JoinSearch)
    (table : tablekey) :
  (forall join, join ∈ m_joins self -> master_key join <> detail_key join) ->
  single_invariant st -> table ∈ tables_to_join st ->
  single_invariant (join_table self table st).
Proof.
  intros Hproper (Hdisjoint & Hnodup & Hdetails) Hpop.
  rewrite join_table_unfold. unfold single_invariant.
  destruct (first_match table (m_joins self)) as [taken|] eqn:Htaken; simpl.
  - apply first_match_detail in Htaken as [Hin Hkey].
    pose proof (Hproper taken Hin) as Hmaster.
    assert (table ∉ joined_tables st) as Hfresh by set_solver.
    split; [|split].
    + case_bool_decide; set_solver.
    + apply NoDup_app. split; [done|]. split; [|apply NoDup_singleton].
      intros join Hjoin ->%list_elem_of_singleton.
      apply Hfresh. rewrite <- Hkey. by apply Hdetails.
    + intros join [Hjoin| ->%list_elem_of_singleton]%elem_of_app.
      * apply elem_of_union. left. by apply Hdetails.
      * rewrite Hkey. set_solver.
  - split; [set_solver|done].
Qed.

(** X15: when no collected join has its own detail key as master key,
    [relevant_joins] returns no join twice, so it returns at most as
    many joins as were collected. *)
Theorem relevant_joins_no_duplicates (self : Mapper)
    (attributes : list PhysicalReference) (picks : nat -> nat) (fuel : nat)
    (result : list Join) :
  (forall join, join ∈ m_joins self -> master_key join <> detail_key join) ->
  relevant_joins self picks fuel attributes = Some result ->
  NoDup result /\ length result <= length (m_joins self).
Proof.
  intros Hproper Hresult%relevant_joins_sound.
  pose proof (relevant_joins_returns_members _ _ _ Hresult) as Hmembers.
  destruct Hresult as (st & Hrun & Hend & <-).
  assert (single_invariant st) as (_ & Hnodup & _).
  { eapply search_run_invariant; [| |exact Hrun].
    - intros st0 table. by apply single_invariant_step.
    - unfold single_invariant, search_start. simpl.
      split; [set_solver|]. split; [apply NoDup_nil_2 | by intros ? ?%elem_of_nil]. }
  split; [done|].
  apply submseteq_length, NoDup_submseteq; [done|].
  intros join (table & _ & Hmatch)%Hmembers.
  by apply first_match_detail in Hmatch as [? _].
Qed.

Lemma relevant_joins_no_duplicates_witness :
  let date := mkJoin (mkPhysicalReference None (Some "sales") (Some "date_id"))
                (mkPhysicalReference None (Some "dim_date") (Some "id")) None in
  let self := mkMapper (mkCube (Some "sales") None [] [] [] None) None None
                (Some "sales") None true None [date] ∅ in
  let attributes := [mkPhysicalReference None (Some "dim_date") (Some "month")] in
  exists result,
    relevant_joins self (fun _ => 0) 3 attributes = Some result
    /\ NoDup result /\ length result <= 1.
Proof.
  intros date self attributes.
  destruct (relevant_joins_total self (fun _ => 0) 0 attributes)
    as (result & Hresult & _).
  exists result. split; [exact Hresult|].
  apply (relevant_joins_no_duplicates self attributes (fun _ => 0) 3 result);
    [|exact Hresult].
  intros join [->|[]%elem_of_nil]%elem_of_cons. discriminate.
Defined.

Lemma occurrences_app (join : Join) (l k : list Join) :
  occurrences join (l ++ k) = occurrences join l + occurrences join k.
Proof. unfold occurrences. by rewrite filter_app, length_app. Qed.

Lemma occurrences_singleton (join other : Join) :
  occurrences join [other] = if bool_decide (other = join) then 1 else 0.
Proof.
  unfold occurrences. rewrite filter_cons, filter_nil.
  case_bool_decide; [by rewrite decide_True | by rewrite decide_False].
Qed.

Lemma taken_invariant_step (self : Mapper) (st : JoinSearch) (table : tablekey) :
  taken_invariant st -> table ∈ tables_to_join st ->
  taken_invariant (join_table self table st).
Proof.
  intros Hinv Hpop join. specialize (Hinv join).
  rewrite join_table_unfold.
  destruct (first_match table (m_joins self)) as [taken|] eqn:Htaken; simpl.
  - apply first_match_detail in Htaken as [_ Hkey].
    rewrite occurrences_app, occurrences_singleton.
    assert (forall other,
              other ∈ joined_tables st ->
              other ∈ (if bool_decide (master_key taken ∈ joined_tables st)
                       then tables_to_join st ∖ {[ table ]}
                       else tables_to_join st ∖ {[ table ]}
                            ∪ {[ master_key taken ]}) ->
              other ∈ tables_to_join st /\ other <> table) as Hback.
    { intros other Hjoined.
      destruct (decide (master_key taken ∈ joined_tables st)) as [Hmaster|Hmaster];
        [rewrite bool_decide_true by done | rewrite bool_decide_false by done].
      - by intros [Hwork Hne%not_elem_of_singleton]%elem_of_difference.
      - intros [[Hwork Hne%not_elem_of_singleton]%elem_of_difference
               | ->%elem_of_singleton]%elem_of_union; [done|].
        by destruct Hmaster. }
    revert Hback.
    generalize (if bool_decide (master_key taken ∈ joined_tables st)
                then tables_to_join st ∖ {[ table ]}
                else tables_to_join st ∖ {[ table ]} ∪ {[ master_key taken ]}).
    intros work Hback.
    destruct (decide (detail_key join = table)) as [Hsame|Hother].
    + rewrite (bool_decide_true (detail_key join ∈ joined_tables st ∪ {[table]})).
      2: { apply elem_of_union. right. by apply elem_of_singleton. }
      assert (occurrences join (joins st)
              + (if bool_decide (taken = join) then 1 else 0)
              <= S (occurrences join (joins st))) as Hone.
      { destruct (bool_decide (taken = join)); lia. }
      destruct (decide (detail_key join ∈ joined_tables st)) as [Hjoined|Hfresh].
      * rewrite (bool_decide_true (detail_key join ∈ joined_tables st)) in Hinv
          by done.
        rewrite (bool_decide_true (detail_key join ∈ tables_to_join st)) in Hinv
          by by rewrite Hsame.
        rewrite (bool_decide_false (detail_key join ∈ work)); [lia|].
        intros Hwork. destruct (Hback _ Hjoined Hwork) as [_ Hne]. done.
      * rewrite (bool_decide_false (detail_key join ∈ joined_tables st)) in Hinv
          by done.
        destruct (bool_decide (detail_key join ∈ work)); lia.
    + rewrite (bool_decide_false (taken = join)) by congruence.
      rewrite Nat.add_0_r.
      destruct (decide (detail_key join ∈ joined_tables st)) as [Hjoined|Hfresh].
      * rewrite (bool_decide_true (detail_key join ∈ joined_tables st)) in Hinv
          by done.
        rewrite (bool_decide_true (detail_key join ∈ joined_tables st ∪ {[table]})).
        2: { apply elem_of_union. by left. }
        destruct (decide (detail_key join ∈ work)) as [Hwork|Hwork].
        -- destruct (Hback _ Hjoined Hwork) as [Hwas _].
           rewrite (bool_decide_true (detail_key join ∈ work)) by done.
           by rewrite (bool_decide_true (detail_key join ∈ tables_to_join st))
             in Hinv.
        -- rewrite (bool_decide_false (detail_key join ∈ work)) by done.
           destruct (bool_decide (detail_key join ∈ tables_to_join st)); lia.
      * rewrite (bool_decide_false (detail_key join ∈ joined_tables st)) in Hinv
          by done.
        lia.
  - destruct (bool_decide (detail_key join ∈ joined_tables st)); [|done].
    destruct (decide (detail_key join ∈ tables_to_join st ∖ {[table]}))
      as [Hwork|Hwork].
    + rewrite bool_decide_true by done.
      apply elem_of_difference in Hwork as [Hwork _].
      by rewrite (bool_decide_true (detail_key join ∈ tables_to_join st)) in Hinv.
    + rewrite bool_decide_false by done.
      destruct (bool_decide (detail_key join ∈ tables_to_join st)); lia.
Qed.

(** At the start no join has been taken. *)
Lemma occurrences_bound_start (attributes : list PhysicalReference) :
  taken_invariant (search_start attributes).
Proof. intros join. unfold search_start, occurrences. simpl. lia. Qed.

(** X16: [relevant_joins] returns no join more than twice, and it does
    return a join twice when the join's master key is its own detail
    key: for a mapper with one such join and a reference to its detail
    key the result is that join two times. *)
Theorem relevant_joins_at_most_twice (self : Mapper)
    (attributes : list PhysicalReference) :
  (forall picks fuel result join,
     relevant_joins self picks fuel attributes = Some result ->
     occurrences join result <= 2)
  /\ (forall join ref picks fuel result,
        m_joins self = [join] -> master_key join = detail_key join ->
        attributes = [ref] -> (schema ref, table ref) = detail_key join ->
        relevant_joins self picks fuel attributes = Some result ->
        result = [join; join]).
Proof.
  split.
  - intros picks fuel result join (st & Hrun & Hend & <-)%relevant_joins_sound.
    assert (taken_invariant st) as Hinv.
    { eapply search_run_invariant; [| |exact Hrun].
      - intros st0 table. apply taken_invariant_step.
      - apply occurrences_bound_start. }
    specialize (Hinv join). repeat case_bool_decide; lia.
  - intros join ref picks fuel result Hjoins Hself -> Hkey
      (st & Hrun & Hend & <-)%relevant_joins_sound.
    assert (first_match (detail_key join) (m_joins self) = Some join) as Hhit.
    { by rewrite Hjoins, first_match_cons, bool_decide_true. }
    apply (search_single self (detail_key join)) in Hrun; [| |done].
    2: { intros other. rewrite search_start_single. by rewrite Hkey. }
    rewrite join_table_unfold, Hhit in Hrun. simpl in Hrun.
    rewrite bool_decide_false in Hrun by apply not_elem_of_empty.
    apply (search_single self (detail_key join)) in Hrun; [| |done].
    2: { intros other. simpl. rewrite Hself, Hkey. set_solver. }
    rewrite join_table_unfold, Hhit in Hrun. simpl in Hrun.
    rewrite bool_decide_true in Hrun by (rewrite Hself; set_solver).
    apply search_finished in Hrun as ->; [done|]. simpl. set_solver.
Qed.

Lemma relevant_joins_at_most_twice_witness :
  let loop := mkJoin (mkPhysicalReference None (Some "unit") (Some "parent_id"))
                (mkPhysicalReference None (Some "unit") (Some "id")) None in
  let self := mkMapper (mkCube (Some "sales") None [] [] [] None) None None
                (Some "sales") None true None [loop] ∅ in
  let attributes := [mkPhysicalReference None (Some "unit") (Some "name")] in
  exists result,
    relevant_joins self (fun _ => 0) 3 attributes = Some result
    /\ result = [loop; loop].
Proof.
  intros loop self attributes.
  destruct (relevant_joins_total self (fun _ => 0) 0 attributes)
    as (result & Hresult & _).
  exists result. split; [exact Hresult|].
  apply (proj2 (relevant_joins_at_most_twice self attributes)
           loop (mkPhysicalReference None (Some "unit") (Some "name"))
           (fun _ => 0) 3 result); try reflexivity.
  exact Hresult.
Defined.

(** ** Across the operations *)

(** X17: the locale that [physical] works with is never one the
    attribute does not declare: it is [None] or a member of the
    declared locales, whatever locale is requested.  The column of the
    default reference is therefore the attribute's name, alone or
    followed by ["_"] and a declared locale. *)
Theorem resolved_locale_declared (self : Mapper) (attribute : Attribute)
    (locale : name) :
  (forall l, resolve_locale attribute locale = Some l ->
     exists declared, locales attribute = Return declared /\ l ∈ declared)
  /\ (column (default_reference self attribute
                (resolve_locale attribute locale))
      = Some (attribute_name attribute)
      \/ exists declared l,
           locales attribute = Return declared /\ l ∈ declared
           /\ column (default_reference self attribute
                        (resolve_locale attribute locale))
              = Some (attribute_name attribute ++ "_" ++ l)).
Proof.
  assert (Hdeclared : forall l, resolve_locale attribute locale = Some l ->
            exists declared, locales attribute = Return declared /\ l ∈ declared).
  { unfold resolve_locale. intros l.
    destruct (locales attribute) as [[|first others]|e]; try discriminate.
    case_bool_decide as Hin.
    - intros ->. exists (first :: others). split; [done|].
      by apply list_elem_of_fmap in Hin as (l' & [= ->] & Hin).
    - intros [= <-]. exists (first :: others). split; [done|].
      apply elem_of_cons. by left. }
  split; [exact Hdeclared|].
  unfold default_reference, str_attribute. simpl.
  destruct (resolve_locale attribute locale) as [[|c rest]|] eqn:Hlocale;
    simpl; [by left| |by left].
  right. destruct (Hdeclared _ eq_refl) as (declared & Hlocales & Hin).
  by exists declared, (String c rest).
Qed.

Lemma resolved_locale_declared_witness :
  let attribute := mkAttribute "name" (Return ["en"; "sk"]) None in
  exists declared, locales attribute = Return declared /\ "en" ∈ declared.
Proof.
  intros attribute.
  apply (proj1 (resolved_locale_declared
                  (mkMapper (mkCube (Some "sales") None [] [] [] None) None
                     None (Some "sales") None true None [] ∅)
                  attribute (Some "fr")) "en").
  reflexivity.
Defined.

(** X18: every join that [relevant_joins] returns is known to the
    table map: when [table_map] returns, it has an entry for the master
    key and for the detail key of each relevant join. *)
Theorem relevant_joins_in_table_map (self : Mapper)
    (attributes : list PhysicalReference) (picks : nat -> nat) (fuel : nat)
    (result : list Join) (tables : gmap tablekey tablekey) :
  relevant_joins self picks fuel attributes = Some result ->
  table_map self = Return tables ->
  forall join, join ∈ result ->
    join ∈ m_joins self
    /\ is_Some (tables !! master_key join)
    /\ is_Some (tables !! detail_key join).
Proof.
  intros Hresult%relevant_joins_sound Htables join Hin.
  apply (relevant_joins_returns_members _ _ _ Hresult) in Hin
    as (table & _ & [Hin _]%first_match_detail).
  split; [done|]. unfold table_map in Htables.
  apply table_map_loop_returns in Htables as ->.
  split; eapply foldl_entries_written, list_elem_of_bind; exists join;
    (split; [|done]); unfold join_entries; rewrite !elem_of_cons; auto.
Qed.

Lemma relevant_joins_in_table_map_witness :
  let date := mkJoin (mkPhysicalReference None (Some "sales") (Some "date_id"))
                (mkPhysicalReference None (Some "dim_date") (Some "id"))
                (Some "d") in
  let self := mkMapper (mkCube (Some "sales") None [] [] [] None) None None
                (Some "sales") None true None [date] ∅ in
  let attributes := [mkPhysicalReference None (Some "d") (Some "month")] in
  exists result tables,
    relevant_joins self (fun _ => 0) 3 attributes = Some result
    /\ table_map self = Return tables
    /\ Forall (fun join => is_Some (tables !! detail_key join)) result.
Proof.
  intros date self attributes.
  destruct (relevant_joins_total self (fun _ => 0) 0 attributes)
    as (result & Hresult & _).
  destruct (table_map self) as [tables|e] eqn:Htables; [|discriminate Htables].
  exists result, tables. split; [exact Hresult|]. split; [reflexivity|].
  apply Forall_forall. intros join Hin.
  exact (proj2 (proj2 (relevant_joins_in_table_map self attributes
                         (fun _ => 0) 3 result tables Hresult Htables join Hin))).
Defined.

(** References none of which is a detail key bring in no join. *)
Lemma relevant_joins_returns_nothing (self : Mapper)
    (attributes : list PhysicalReference) (result : list Join) :
  relevant_joins_returns self attributes result ->
  (forall ref, ref ∈ attributes ->
     first_match (schema ref, table ref) (m_joins self) = None) ->
  result = [].
Proof.
  intros Hresult Hnone. destruct result as [|join rest]; [done|].
  assert (join ∈ join :: rest) as Hin by (apply elem_of_cons; by left).
  apply (relevant_joins_returns_members _ _ _ Hresult) in Hin
    as (table & Hneeded & Hmatch).
  assert (first_match table (m_joins self) = None); [|congruence].
  clear Hmatch. induction Hneeded as [ref Hin|table' taken _ IH Hmatch].
  - by apply Hnone.
  - congruence.
Qed.

(** X19: a default schema hides the joins.  For a mapper constructed
    with a default schema and with every join detail written as a
    string or a 2-element list, [physical] without override table
    returns references in that schema, while the collected joins have
    no schema; so for references in the default schema
    [relevant_joins] returns no join at all, whatever the joins are. *)
Theorem relevant_joins_under_schema (cube : Cube)
    (mappings : option (gmap string rawref))
    (locale fact_name dimension_prefix : name) (configured : string)
    (raws : list RawJoin) (self : Mapper) :
  Mapper_init (Some cube) mappings locale (Some configured) fact_name
    dimension_prefix (Some raws) = Return self ->
  (forall raw d, raw ∈ raws -> raw_detail raw = Some d ->
     without_schema d = true) ->
  (forall attribute requested ref,
     cube_mappings cube = None ->
     physical self attribute requested = Return ref ->
     schema ref = Some configured)
  /\ (forall attributes picks fuel result,
        (forall ref, ref ∈ attributes -> schema ref = Some configured) ->
        relevant_joins self picks fuel attributes = Some result ->
        result = []).
Proof.
  intros Hinit Hshape.
  pose proof (Mapper_init_joins _ _ _ _ _ _ _ _ Hinit) as Hjoins.
  apply Mapper_init_returns in Hinit as (collected & _ & Hself).
  split.
  - intros attribute requested ref Hnone. rewrite physical_by_entry.
    replace (cube_mappings (m_cube self)) with (@None (gmap string rawref))
      by by rewrite Hself.
    simpl. intros [= <-]. by rewrite Hself.
  - intros attributes picks fuel result Hschema Hresult%relevant_joins_sound.
    apply (relevant_joins_returns_nothing _ _ _ Hresult).
    intros ref Hin.
    destruct (first_match (schema ref, table ref) (m_joins self))
      as [join|] eqn:Hmatch; [|done].
    apply first_match_detail in Hmatch as [(i & Hjoin)%list_elem_of_lookup_1 Hkey].
    destruct (Forall2_lookup_r _ _ _ _ _ Hjoins Hjoin) as (raw & Hraw & Hcollect).
    apply collect_join_returns in Hcollect as (m & d & _ & Hd & _ & Hcoalesce & _).
    assert (schema (detail join) = None) as Hdetail.
    { eapply coalesce_without_schema; [|exact Hcoalesce].
      eapply Hshape; [|exact Hd]. by eapply list_elem_of_lookup_2. }
    unfold detail_key in Hkey. rewrite Hdetail, (Hschema ref Hin) in Hkey.
    discriminate.
Qed.

Lemma relevant_joins_under_schema_witness :
  let raw := mkRawJoin (Some (RefStr "sales.date_id"))
               (Some (RefStr "dim_date.id")) None in
  let cube := mkCube (Some "sales") None [] [] [] None in
  let self := mkMapper cube None None (Some "sales") (Some "public") true None
                [mkJoin (mkPhysicalReference None (Some "sales") (Some "date_id"))
                   (mkPhysicalReference None (Some "dim_date") (Some "id"))
                   None] ∅ in
  let attributes :=
    [mkPhysicalReference (Some "public") (Some "dim_date") (Some "month")] in
  exists result,
    relevant_joins self (fun _ => 0) 3 attributes = Some result /\ result = [].
Proof.
  intros raw cube self attributes.
  destruct (relevant_joins_total self (fun _ => 0) 0 attributes)
    as (result & Hresult & _).
  exists result. split; [exact Hresult|].
  apply (proj2 (relevant_joins_under_schema cube None None None None "public"
                  [raw] self eq_refl
                  ltac:(intros r d [->|[]%elem_of_nil]%elem_of_cons [= <-];
                        reflexivity))
           attributes (fun _ => 0) 3 result); [|exact Hresult].
  intros ref [->|[]%elem_of_nil]%elem_of_cons. reflexivity.
Defined.

(** ** Relevant joins: the turn of the loop, on the fields of the joins *)

(** A single join that is its own master is taken twice. *)
Lemma self_join_returns_twice (self : Mapper) (join : Join)
    (ref : PhysicalReference) (result : list Join) :
  m_joins self = [join] -> master_key join = detail_key join ->
  (schema ref, table ref) = detail_key join ->
  relevant_joins_returns self [ref] result ->
  result = [join; join].
Proof.
  intros Hjoins Hself Hkey (st & Hrun & Hend & <-).
  assert (first_match (detail_key join) (m_joins self) = Some join) as Hhit.
  { by rewrite Hjoins, first_match_cons, bool_decide_true. }
  apply (search_single self (detail_key join)) in Hrun; [| |done].
  2: { intros other. rewrite search_start_single. by rewrite Hkey. }
  rewrite join_table_unfold, Hhit in Hrun. simpl in Hrun.
  rewrite bool_decide_false in Hrun by apply not_elem_of_empty.
  apply (search_single self (detail_key join)) in Hrun; [| |done].
  2: { intros other. simpl. rewrite Hself, Hkey. set_solver. }
  rewrite join_table_unfold, Hhit in Hrun. simpl in Hrun.
  rewrite bool_decide_true in Hrun by (rewrite Hself; set_solver).
  apply search_finished in Hrun as ->; [done|]. simpl. set_solver.
Qed.

(** C1, as worded, fails three times.  A reference with table ["d"]
    but a schema other than the join's detail schema matches nothing:
    for the mapper of schema ["public"] built from the join
    [master ["sales", "date_id"], detail ["dim_date", "id"], alias "d"]
    the reference [("public", "d", "month")] gives no join.  A join
    whose master is its own detail key is returned twice, not once.
    And an alias that is the empty string does not count as an alias:
    the table ["dim_date"] then takes the join. *)
Lemma relevant_joins_example_fails :
  (let cube := mkCube (Some "sales") None [] [] [] None in
   let raw := mkRawJoin (Some (RefSeq [Some "sales"; Some "date_id"]))
                (Some (RefSeq [Some "dim_date"; Some "id"])) (Some "d") in
   let self := mkMapper cube None None (Some "sales") (Some "public") true None
                 [mkJoin (mkPhysicalReference None (Some "sales")
                            (Some "date_id"))
                    (mkPhysicalReference None (Some "dim_date") (Some "id"))
                    (Some "d")] ∅ in
   Mapper_init (Some cube) None None (Some "public") None None (Some [raw])
   = Return self
   /\ ~ spec_example_claim self)
  /\ (let loop := mkJoin (mkPhysicalReference None (Some "d") (Some "parent_id"))
                    (mkPhysicalReference None (Some "dim_date") (Some "id"))
                    (Some "d") in
      ~ spec_example_claim
          (mkMapper (mkCube (Some "sales") None [] [] [] None) None None
             (Some "sales") None true None [loop] ∅))
  /\ (let blank := mkJoin (mkPhysicalReference None (Some "sales")
                             (Some "date_id"))
                     (mkPhysicalReference None (Some "dim_date") (Some "id"))
                     (Some "") in
      ~ spec_turn_claim
          (mkMapper (mkCube (Some "sales") None [] [] [] None) None None
             (Some "sales") None true None [blank] ∅)
          (search_start
             [mkPhysicalReference None (Some "dim_date") (Some "month")])
          (None, Some "dim_date")).
Proof.
  split; [|split].
  - intros cube raw self. split; [reflexivity|]. intros Hclaim.
    set (attributes :=
           [mkPhysicalReference (Some "public") (Some "d") (Some "month")]).
    destruct (relevant_joins_total self (fun _ => 0) 0 attributes)
      as (result & Hcall & Hresult).
    destruct (Hclaim _ eq_refl eq_refl eq_refl (Some "public") (Some "month")
                (fun _ => 0) (search_bound self attributes + 0) result)
      as [_ Hone].
    specialize (Hone Hcall).
    assert (result = []) as Hnone.
    { apply (relevant_joins_returns_nothing self attributes result Hresult).
      intros ref [->|[]%elem_of_nil]%elem_of_cons. reflexivity. }
    rewrite Hnone in Hone. discriminate.
  - intros loop Hclaim.
    set (self := mkMapper (mkCube (Some "sales") None [] [] [] None) None None
                   (Some "sales") None true None [loop] ∅) in *.
    set (ref := mkPhysicalReference None (Some "d") (Some "month")).
    destruct (relevant_joins_total self (fun _ => 0) 0 [ref])
      as (result & Hcall & Hresult).
    destruct (Hclaim _ eq_refl eq_refl eq_refl None (Some "month")
                (fun _ => 0) (search_bound self [ref] + 0) result)
      as [_ Hone].
    specialize (Hone Hcall).
    rewrite (self_join_returns_twice self loop ref result eq_refl eq_refl
               eq_refl Hresult) in Hone.
    discriminate.
  - intros blank [_ Hnone].
    assert (joins
              (join_table
                 (mkMapper (mkCube (Some "sales") None [] [] [] None) None None
                    (Some "sales") None true None [blank] ∅)
                 (None, Some "dim_date")
                 (search_start
                    [mkPhysicalReference None (Some "dim_date") (Some "month")]))
            = [blank]) as Htaken.
    { rewrite join_table_unfold. reflexivity. }
    rewrite Htaken in Hnone. discriminate Hnone.
    constructor; [discriminate | constructor].
Qed.

(** C1, amended.  The work set starts as the [(schema, table)] pairs of
    the references, with nothing joined and no join taken.  A turn of
    the loop pops a table of the work set and scans the collected joins
    in order.  The first join whose detail key, the pair of
    [detail.schema] and the alias if that is a non-empty string, else
    [detail.table], is the popped table is appended to the result; the
    popped table is marked as joined; and the join's master
    [(master.schema, master.table)] enters the work set only if it is
    not marked as joined.  A table that is no join's detail key adds no
    join.  With a single join of detail table ["dim_date"] and alias
    ["d"], a reference with table ["dim_date"] gives no join; a
    reference with table ["d"] and the join's detail schema takes that
    join, and gives exactly that join when the join's master is not its
    own detail key. *)
Theorem relevant_joins_first_match (self : Mapper) :
  let detail_side := fun join : Join =>
    (schema (detail join),
     match alias join with
     | Some (String c rest) => Some (String c rest)
     | _ => table (detail join)
     end) in
  let master_side := fun join : Join =>
    (schema (master join), table (master join)) in
  (forall attributes,
     (forall key, key ∈ tables_to_join (search_start attributes)
                  <-> exists ref, ref ∈ attributes
                                  /\ key = (schema ref, table ref))
     /\ joined_tables (search_start attributes) = ∅
     /\ joins (search_start attributes) = [])
  /\ (forall st st',
        search_step self st st'
        <-> exists popped, popped ∈ tables_to_join st
                           /\ st' = join_table self popped st)
  /\ (forall popped,
        (exists before join after,
           m_joins self = (before ++ join :: after)%list
           /\ Forall (fun other => detail_side other <> popped) before
           /\ detail_side join = popped)
        \/ Forall (fun other => detail_side other <> popped) (m_joins self))
  /\ (forall st popped before join after,
        m_joins self = (before ++ join :: after)%list ->
        Forall (fun other => detail_side other <> popped) before ->
        detail_side join = popped ->
        joins (join_table self popped st) = (joins st ++ [join])%list
        /\ joined_tables (join_table self popped st)
           = joined_tables st ∪ {[ popped ]}
        /\ (master_side join ∈ joined_tables st ->
            tables_to_join (join_table self popped st)
            = tables_to_join st ∖ {[ popped ]})
        /\ (master_side join ∉ joined_tables st ->
            tables_to_join (join_table self popped st)
            = (tables_to_join st ∖ {[ popped ]}) ∪ {[ master_side join ]}))
  /\ (forall st popped,
        Forall (fun other => detail_side other <> popped) (m_joins self) ->
        join_table self popped st
        = mkJoinSearch (tables_to_join st ∖ {[ popped ]}) (joined_tables st)
            (joins st))
  /\ (forall join,
        m_joins self = [join] ->
        table (detail join) = Some "dim_date" -> alias join = Some "d" ->
        (forall s st,
           joins (join_table self (s, Some "dim_date") st) = joins st)
        /\ (forall s c result,
              relevant_joins_returns self
                [mkPhysicalReference s (Some "dim_date") c] result ->
              result = [])
        /\ (forall s c picks extra,
              let attributes := [mkPhysicalReference s (Some "dim_date") c] in
              relevant_joins self picks (search_bound self attributes + extra)
                attributes = Some [])
        /\ (forall st,
              joins (join_table self (schema (detail join), Some "d") st)
              = (joins st ++ [join])%list)
        /\ (master_side join <> (schema (detail join), Some "d") ->
            forall c result,
              relevant_joins_returns self
                [mkPhysicalReference (schema (detail join)) (Some "d") c]
                result ->
              result = [join])
        /\ (master_side join <> (schema (detail join), Some "d") ->
            forall c picks extra,
              let attributes :=
                [mkPhysicalReference (schema (detail join)) (Some "d") c] in
              relevant_joins self picks (search_bound self attributes + extra)
                attributes = Some [join])).
Proof.
  intros detail_side master_side.
  assert (Hdetail : forall join, detail_side join = detail_key join).
  { intros join. unfold detail_side, detail_key, py_or.
    by destruct (alias join) as [[|c rest]|]. }
  assert (Hsides : forall popped l,
            Forall (fun other => detail_side other <> popped) l
            <-> Forall (fun other => detail_key other <> popped) l).
  { intros popped l. apply Forall_proper; [|done]. intros join.
    by rewrite Hdetail. }
  assert (Hmatch : forall popped before join after,
            m_joins self = (before ++ join :: after)%list ->
            Forall (fun other => detail_side other <> popped) before ->
            detail_side join = popped ->
            first_match popped (m_joins self) = Some join).
  { intros popped before join after Hjoins Hbefore Hjoin.
    apply first_match_Some. exists before, after.
    split; [done|]. split; [by apply Hsides|]. by rewrite <- Hdetail. }
  assert (Hmiss : forall popped,
            Forall (fun other => detail_side other <> popped) (m_joins self) ->
            first_match popped (m_joins self) = None).
  { intros popped Hnone. by apply first_match_None, Hsides. }
  split; [|split; [|split; [|split; [|split]]]].
  - intros attributes. split; [|done]. intros key.
    unfold search_start. simpl.
    rewrite elem_of_list_to_set, list_elem_of_fmap. naive_solver.
  - intros st st'. split.
    + intros Hstep. destruct Hstep as [popped st Hwork]. by exists popped.
    + intros (popped & Hwork & ->). by constructor.
  - intros popped.
    destruct (first_match popped (m_joins self)) as [join|] eqn:Hfirst.
    + left. apply first_match_Some in Hfirst
        as (before & after & Hjoins & Hbefore & Hkey).
      exists before, join, after. split; [done|].
      split; [by apply Hsides | by rewrite Hdetail].
    + right. by apply Hsides, first_match_None.
  - intros st popped before join after Hjoins Hbefore Hjoin.
    rewrite join_table_unfold, (Hmatch _ _ _ _ Hjoins Hbefore Hjoin). simpl.
    split; [done|]. split; [done|]. split.
    + intros Hjoined. by rewrite bool_decide_true.
    + intros Hfresh. by rewrite bool_decide_false.
  - intros st popped Hnone. by rewrite join_table_unfold, (Hmiss _ Hnone).
  - intros join Hjoins Htable Halias.
    assert (detail_key join = (schema (detail join), Some "d")) as Hkey.
    { unfold detail_key. by rewrite Halias. }
    assert (forall s, first_match (s, Some "dim_date") (m_joins self) = None)
      as Hnot.
    { intros s. rewrite Hjoins, first_match_cons, Hkey.
      by rewrite bool_decide_false by congruence. }
    assert (first_match (schema (detail join), Some "d") (m_joins self)
            = Some join) as Hhit.
    { by rewrite Hjoins, first_match_cons, Hkey, bool_decide_true. }
    assert (forall s c result,
              relevant_joins_returns self
                [mkPhysicalReference s (Some "dim_date") c] result ->
              result = []) as Hnone.
    { intros s c result Hresult.
      apply (relevant_joins_returns_nothing _ _ _ Hresult).
      intros ref [->|[]%elem_of_nil]%elem_of_cons. apply Hnot. }
    assert (master_side join <> (schema (detail join), Some "d") ->
            forall c result,
              relevant_joins_returns self
                [mkPhysicalReference (schema (detail join)) (Some "d") c]
                result ->
              result = [join]) as Hone.
    { intros Hmaster c result (st & Hrun & Hend & <-).
      apply (search_single self (schema (detail join), Some "d")) in Hrun;
        [|apply search_start_single | done].
      rewrite join_table_unfold, Hhit in Hrun. simpl in Hrun.
      rewrite bool_decide_false in Hrun by apply not_elem_of_empty.
      apply (search_single self (master_key join)) in Hrun; [| |done].
      2: { intros other. simpl. set_solver. }
      assert (first_match (master_key join) (m_joins self) = None) as Hmaster'.
      { rewrite Hjoins, first_match_cons, Hkey.
        by rewrite bool_decide_false by done. }
      rewrite join_table_unfold, Hmaster' in Hrun. simpl in Hrun.
      apply search_finished in Hrun as ->; [done|]. simpl. set_solver. }
    split; [|split; [exact Hnone|split; [|split; [|split; [exact Hone|]]]]].
    + intros s st. by rewrite join_table_unfold, Hnot.
    + intros s c picks extra attributes.
      destruct (relevant_joins_total self picks extra attributes)
        as (result & -> & Hresult).
      by rewrite (Hnone s c result Hresult).
    + intros st. by rewrite join_table_unfold, Hhit.
    + intros Hmaster c picks extra attributes.
      destruct (relevant_joins_total self picks extra attributes)
        as (result & -> & Hresult).
      by rewrite (Hone Hmaster c result Hresult).
Qed.

Lemma relevant_joins_first_match_witness :
  let date := mkJoin (mkPhysicalReference None (Some "sales") (Some "date_id"))
                (mkPhysicalReference None (Some "dim_date") (Some "id"))
                (Some "d") in
  let year := mkJoin (mkPhysicalReference None (Some "d") (Some "year_id"))
                (mkPhysicalReference None (Some "dim_year") (Some "id")) None in
  let self := mkMapper (mkCube (Some "sales") None [] [] [] None) None None
                (Some "sales") (Some "public") true None [date; year] ∅ in
  let first_turn :=
    join_table self (None, Some "dim_year")
      (search_start [mkPhysicalReference None (Some "dim_year") (Some "name")]) in
  let second_turn := join_table self (None, Some "d") first_turn in
  joins first_turn = [year]
  /\ (None, Some "d") ∈ tables_to_join first_turn
  /\ joins second_turn = [year; date]
  /\ (None, Some "sales") ∈ tables_to_join second_turn.
Proof.
  intros date year self first_turn second_turn.
  pose proof (relevant_joins_first_match self) as Hturn. cbv zeta in Hturn.
  destruct Hturn as (_ & _ & _ & Htaken & _ & _).
  destruct (Htaken
              (search_start
                 [mkPhysicalReference None (Some "dim_year") (Some "name")])
              (None, Some "dim_year") [date] year [] eq_refl
              ltac:(constructor; [discriminate | constructor]) eq_refl)
    as (Hjoins1 & Hjoined1 & _ & Hwork1).
  fold first_turn in Hjoins1, Hjoined1, Hwork1.
  destruct (Htaken first_turn (None, Some "d") [] date [year] eq_refl
              ltac:(constructor) eq_refl)
    as (Hjoins2 & _ & _ & Hwork2).
  fold second_turn in Hjoins2, Hwork2.
  split; [exact Hjoins1|]. split; [|split].
  - rewrite Hwork1; [|apply not_elem_of_empty].
    apply elem_of_union. right. by apply elem_of_singleton.
  - rewrite Hjoins2, Hjoins1. reflexivity.
  - rewrite Hwork2.
    + apply elem_of_union. right. by apply elem_of_singleton.
    + rewrite Hjoined1. intros [[]%elem_of_empty|Hin%elem_of_singleton]%elem_of_union.
      discriminate Hin.
Defined.
